(** * AgroDrone file-transfer watcher: a shallow embedding and its properties

    The development follows [file_transfer_watcher/]: [scp_dir.go]
    ([scpDir], [speedReader.Read]), [find_and_connect.go]
    ([findAndConnect], [checkIfConnected]) and [main.go] (the watcher loop),
    together with the earlier watcher loop that still carries the
    connectivity stage.

    Everything the Go code does to the outside world (running [nmcli],
    listing and walking the export directory, opening files, copying over
    the session, removing entries, logging, sleeping) is recorded as an
    [Event]; what the outside world answers is supplied by explicit
    oracles.  A function of the program becomes a Rocq function from its
    arguments and oracles to its result and the trace of events it
    produced. *)

From Stdlib Require Import List String Ascii ZArith NArith Bool Lia.
Set Warnings "-register-all".
Import ListNotations.
Open Scope string_scope.
Open Scope Z_scope.
Open Scope list_scope.

(** ** Time: [time.Duration] and [time.Time] *)

Module Time.

(** A [time.Duration] is an int64 count of nanoseconds. *)
Definition Duration := Z.

Definition Nanosecond : Duration := 1.
Definition Microsecond : Duration := 1000 * Nanosecond.
Definition Millisecond : Duration := 1000 * Microsecond.
Definition Second : Duration := 1000 * Millisecond.
Definition Minute : Duration := 60 * Second.

Definition minDuration : Duration := - 2 ^ 63.
Definition maxDuration : Duration := 2 ^ 63 - 1.

(** A [time.Time] is either the zero value of the type (the state of a
    field that was never assigned) or a reading of [time.Now()], which is
    identified with its monotonic clock reading in nanoseconds. *)
Inductive Time :=
| Zero
| Mono (ns : Z).

(** [t.Sub(u)]: the difference, saturated to the int64 range.  A reading
    of [time.Now()] lies more than [maxDuration] after the zero time. *)
Definition Sub (t u : Time) : Duration :=
  match t, u with
  | Mono a, Mono b => Z.max minDuration (Z.min maxDuration (a - b))
  | Mono _, Zero => maxDuration
  | Zero, Mono _ => minDuration
  | Zero, Zero => 0
  end.

End Time.

(** ** [speedReader]: throughput reporting on every read *)

Module SpeedReader.
Import Time.

(** The error result of the wrapped reader's [Read]. *)
Inductive ioerr :=
| EOF
| OtherErr.

(** What [Read] writes to standard output.  A progress line is printed
    from the file name, the byte counter and the quotient of the counter
    by the elapsed seconds; the two operands of that division are kept,
    the floating-point quotient itself is not computed. *)
Inductive Output :=
| Progress (file : string) (bytes : Z) (elapsed : Duration)
| Newline.

(** [counter] is the int64 cell that [passThru] shares with the reader;
    [file] is the name of the wrapped [*os.File]. *)
Record speedReader := mkSpeedReader {
  file : string;
  start : Time;
  counter : Z;
  lastPrint : Time;
  minDelta : Duration
}.

(** int64 addition wraps around. *)
Definition wrap64 (z : Z) : Z := (z + 2 ^ 63) mod 2 ^ 64 - 2 ^ 63.

(** [(s *speedReader) Read]: [n] and [err] are what the wrapped reader
    returned, [now] is the reading of [time.Now()].  [elapsed] is a
    float64 number of seconds in the source; it is positive exactly when
    the duration it was converted from is. *)
Definition Read (s : speedReader) (now : Z) (n : Z) (err : option ioerr)
  : speedReader * list Output :=
  let c := wrap64 (counter s + n) in
  let s1 := mkSpeedReader (file s) (start s) c (lastPrint s) (minDelta s) in
  let '(s2, out) :=
    if minDelta s1 <=? Sub (Mono now) (lastPrint s1) then
      let elapsed := Sub (Mono now) (start s1) in
      let out := if 0 <? elapsed then [Progress (file s1) c elapsed] else [] in
      (mkSpeedReader (file s1) (start s1) c (Mono now) (minDelta s1), out)
    else (s1, [])
  in
  let fin := match err with Some EOF => [Newline] | _ => [] end in
  (s2, out ++ fin).

(** The reader that [passThru] builds inside [scpDir]: [total] starts at
    zero, [lastPrint] is left at its zero value. *)
Definition passThru (file : string) (start : Z) : speedReader :=
  mkSpeedReader file (Mono start) 0 Zero (Millisecond * 100).

(** One call of [Read] as the environment provides it. *)
Record call := mkCall {
  c_now : Z;
  c_n : Z;
  c_err : option ioerr
}.

(** A sequence of [Read] calls on one reader; every call's output is
    kept with the clock reading of that call. *)
Fixpoint reads (s : speedReader) (cs : list call) : list (Z * list Output) :=
  match cs with
  | [] => []
  | c :: cs' =>
      let '(s', out) := Read s (c_now c) (c_n c) (c_err c) in
      (c_now c, out) :: reads s' cs'
  end.

Definition is_progress (o : Output) : bool :=
  match o with Progress _ _ _ => true | Newline => false end.

(** Clock readings of the calls that printed a progress line. *)
Definition print_times (log : list (Z * list Output)) : list Z :=
  map fst (filter (fun e => existsb is_progress (snd e)) log).

(** All progress lines of a run. *)
Definition progress_lines (log : list (Z * list Output)) : list Output :=
  filter is_progress (List.concat (map snd log)).

(** The clock does not run backwards between calls. *)
Fixpoint nondecreasing (ts : list Z) : Prop :=
  match ts with
  | [] => True
  | t :: ts' =>
      match ts' with
      | [] => True
      | u :: _ => t <= u
      end /\ nondecreasing ts'
  end.

(** Consecutive entries are at least [d] apart. *)
Fixpoint separated (d : Z) (ts : list Z) : Prop :=
  match ts with
  | [] => True
  | t :: ts' =>
      match ts' with
      | [] => True
      | u :: _ => d <= u - t
      end /\ separated d ts'
  end.

(** A progress line printed by the call at clock reading [t] of a reader
    started at [st] divides by the time elapsed since [st], and that time
    is positive. *)
Definition sound_divisor (st : Time) (t : Z) (o : Output) : Prop :=
  match o with
  | Progress _ _ elapsed => elapsed = Sub (Mono t) st /\ 0 < elapsed
  | Newline => True
  end.

End SpeedReader.

(** ** Events and errors *)

(** A cleaned path, as the list of its components.  The paths of the
    program are the export directory, the ingest directory and what
    [filepath.Walk] builds below the export directory by joining names. *)
Definition path := list string.

(** What the program does to the outside world, in the order it does it.
    Events that can fail carry the outcome. *)
Inductive Event :=
| Exec (name : string) (args : list string)
| Log (line : string)
| Sleep (d : Time.Duration)
| ReadDir (dir : path) (names : option (list string))
| Connect (addr user password : string) (ok : bool)
| Close
| Open (p : path) (ok : bool)
| Copy (src remote : path) (perm : string) (data : string) (ok : bool)
| CloseFile (p : path)
| RemoveAll (p : path) (ok : bool).

(** The error values [scpDir] can return: a failed [client.Connect], an
    error that [filepath.Walk] hands to the callback ([Lstat] or directory
    listing failed), a failed [os.Open], a failed
    [client.CopyFromFilePassThru]. *)
Inductive error :=
| ErrConnect
| ErrWalk (p : path)
| ErrOpen (p : path)
| ErrCopy (src remote : path).

(** ** Reading traces *)

Module Trace.

(** A run of an external command (the connectivity manager runs
    [nmcli]; nothing else in the program runs a command). *)
Definition is_exec (e : Event) : bool :=
  match e with
  | Exec _ _ => true
  | _ => false
  end.

(** The [nmcli] runs that ask for a connection. *)
Definition is_connect_cmd (e : Event) : bool :=
  match e with
  | Exec _ ("device" :: "wifi" :: "connect" :: _) => true
  | _ => false
  end.

(** What the sync engine does: the session and the files it sends. *)
Definition is_session (e : Event) : bool :=
  match e with
  | Connect _ _ _ _ | Open _ _ | Copy _ _ _ _ _ | Close | CloseFile _ => true
  | _ => false
  end.

(** The paths whose removal a trace reports as done. *)
Fixpoint removed (t : list Event) : list path :=
  match t with
  | [] => []
  | RemoveAll p true :: t' => p :: removed t'
  | _ :: t' => removed t'
  end.

(** The paths on which a trace attempted a removal. *)
Fixpoint removals (t : list Event) : list path :=
  match t with
  | [] => []
  | RemoveAll p _ :: t' => p :: removals t'
  | _ :: t' => removals t'
  end.

(** Every failed removal of the trace is followed at once by its log
    line. *)
Fixpoint failures_logged (t : list Event) : bool :=
  match t with
  | [] => true
  | RemoveAll _ false :: t' =>
      match t' with
      | Log line :: _ =>
          String.eqb line "Error occured on delete: %v" && failures_logged t'
      | _ => false
      end
  | _ :: t' => failures_logged t'
  end.

(** The first command of the connectivity manager comes before the
    first event of the sync engine, if the sync engine does anything. *)
Fixpoint connectivity_first (t : list Event) : bool :=
  match t with
  | [] => true
  | e :: t' =>
      if is_exec e then true
      else if is_session e then false
      else connectivity_first t'
  end.

End Trace.

(** ** [fmt.Sprintf("%04o", ...)] and [FileMode.Perm] *)

Module Fmt.

Definition octal_digit (d : N) : ascii := ascii_of_N (48 + d).

Fixpoint octal_aux (fuel : nat) (n : N) (acc : string) : string :=
  match fuel with
  | O => acc
  | S fuel' =>
      let acc' := String (octal_digit (n mod 8)) acc in
      if (n / 8 =? 0)%N then acc' else octal_aux fuel' (n / 8) acc'
  end.

(** The verb [%o]: base 8, most significant digit first. *)
Definition FormatOctal (n : N) : string :=
  octal_aux (S (N.to_nat (N.log2 n))) n "".

Fixpoint zeros (k : nat) : string :=
  match k with
  | O => ""
  | S k' => String "0" (zeros k')
  end.

(** The flag [0] with width 4: zeros on the left up to four characters. *)
Definition Sprintf04o (n : N) : string :=
  let s := FormatOctal n in
  (zeros (4 - String.length s) ++ s)%string.

(** [FileMode.Perm]: the mode with all bits outside [ModePerm = 0o777]
    cleared. *)
Definition ModePerm : N := 511.
Definition Perm (mode : N) : N := N.land mode ModePerm.

(** Reading a string of octal digits back, for stating what
    [Sprintf04o] wrote. *)
Definition is_octal_digit (c : ascii) : bool :=
  ((48 <=? N_of_ascii c) && (N_of_ascii c <=? 55))%N.

Fixpoint all_octal (s : string) : bool :=
  match s with
  | EmptyString => true
  | String c s' => is_octal_digit c && all_octal s'
  end.

Fixpoint octal_value_aux (s : string) (acc : N) : N :=
  match s with
  | EmptyString => acc
  | String c s' => octal_value_aux s' (8 * acc + (N_of_ascii c - 48))%N
  end.

Definition octal_value (s : string) : N := octal_value_aux s 0%N.

(** The mode string of [p] has four characters, all octal digits, and
    reads back as [p]. *)
Definition mode_string_ok (p : N) : bool :=
  (String.length (Sprintf04o p) =? 4)%nat
  && all_octal (Sprintf04o p)
  && (octal_value (Sprintf04o p) =? p)%N.

End Fmt.

(** ** The export directory as [filepath.Walk] and [os.ReadDir] see it *)

Module Fs.

(** [filepath.Join] of cleaned paths. *)
Definition Join (a b : path) : path := a ++ b.

(** [filepath.Rel base target] for a target at or below [base], which is
    how [scpDir] calls it (every path of the walk is the root joined with
    names); [None] stands for the error result. *)
Fixpoint Rel (base target : path) : option path :=
  match base, target with
  | [], _ => Some target
  | b :: base', t :: target' =>
      if String.eqb b t then Rel base' target' else None
  | _ :: _, [] => None
  end.

(** A directory entry: anything that is not a directory ([File], with
    the [FileMode] that [Lstat] reports, its content and whether
    [os.Open] succeeds on it), a directory (with whether it can be
    listed, and its entries in the order the listing returns them, which
    is by file name), or a name on which [Lstat] fails. *)
Inductive node :=
| File (mode : N) (data : string) (openable : bool)
| Dir (mode : N) (listable : bool) (entries : list (string * node))
| NoStat.

(** [os.ReadDir] on the node: the names, or an error. *)
Definition readDir (n : node) : option (list string) :=
  match n with
  | Dir _ true es => Some (map fst es)
  | _ => None
  end.

(** The directory without its entry [name]: the effect of an
    [os.RemoveAll] of that entry that succeeds. *)
Definition removeEntry (name : string) (n : node) : node :=
  match n with
  | Dir m l es => Dir m l (filter (fun e => negb (String.eqb (fst e) name)) es)
  | _ => n
  end.

(** [os.RemoveAll] on what is at [p]: it removes everything it can and
    reports the first error.  [ok q] tells whether removing the single
    name [q] (unlinking a file, removing an empty directory) succeeds.  A
    directory that can be listed has its entries removed first, each as
    far as possible; the directory itself goes when nothing is left in it
    and its own removal succeeds.  The result is [None] when nothing is
    left (no error), and what is left otherwise. *)
Fixpoint removeAll (ok : path -> bool) (p : path) (n : node) : option node :=
  match n with
  | File _ _ _ => if ok p then None else Some n
  | NoStat => if ok p then None else Some n
  | Dir m listable entries =>
      let left :=
        if listable then
          flat_map (fun e =>
                      match removeAll ok (Join p [fst e]) (snd e) with
                      | None => []
                      | Some c => [(fst e, c)]
                      end) entries
        else entries in
      match left with
      | [] => if ok p then None else Some (Dir m listable [])
      | _ :: _ => Some (Dir m listable left)
      end
  end.

(** The entry [name] of the directory with [c] in its place: what a
    failed [os.RemoveAll] leaves of it. *)
Definition replaceEntry (name : string) (c : node) (n : node) : node :=
  match n with
  | Dir m l es =>
      Dir m l (map (fun e => if String.eqb (fst e) name then (fst e, c) else e) es)
  | _ => n
  end.

(** The capture service creating a new entry in the directory. *)
Definition addEntry (name : string) (c : node) (n : node) : node :=
  match n with
  | Dir m l es => Dir m l (es ++ [(name, c)])
  | _ => n
  end.

(** The entry of that name, if the directory has one. *)
Definition findEntry (name : string) (n : node) : option node :=
  match n with
  | Dir _ _ es =>
      option_map snd (find (fun e => String.eqb (fst e) name) es)
  | _ => None
  end.

(** Induction on a tree, with the property available for every entry of
    a directory. *)
Fixpoint node_nested_ind (P : node -> Prop)
         (hF : forall m d o, P (File m d o))
         (hD : forall m l es, Forall (fun e => P (snd e)) es -> P (Dir m l es))
         (hN : P NoStat) (n : node) : P n :=
  match n with
  | File m d o => hF m d o
  | Dir m l es =>
      hD m l es
         ((fix each (es : list (string * node)) : Forall (fun e => P (snd e)) es :=
             match es with
             | [] => Forall_nil _
             | e :: es' =>
                 Forall_cons e (node_nested_ind P hF hD hN (snd e)) (each es')
             end) es)
  | NoStat => hN
  end.

End Fs.

(** ** [scpDir]: the directory sync engine *)

Module ScpDir.
Import Fs Fmt.

(** The remote side of one pass: whether [client.Connect] succeeds, and
    whether the copy of the local file at a path succeeds (a failure to
    read the local file while it is streamed is a failure of the copy). *)
Record Remote := mkRemote {
  connect_ok : bool;
  copy_ok : path -> bool
}.

Section Walk.
Variables (exportDir ingestDir : path) (rem : Remote).

(** The callback that [scpDir] passes to [filepath.Walk]; [n] is what is
    at [p] and [err] the error that [Walk] hands over. *)
Definition walkFn (p : path) (n : node) (err : option error)
  : option error * list Event :=
  match err, n with
  | Some e, _ => (Some e, [])
  | None, Dir _ _ _ => (None, [])
  | None, NoStat => (None, [])
  | None, File mode data openable =>
      let relativePath :=
        match Rel exportDir p with Some r => r | None => [] end in
      let remotePath := Join ingestDir relativePath in
      if openable then
        let ok := copy_ok rem p in
        (if ok then None else Some (ErrCopy p remotePath),
         [Open p true;
          Copy p remotePath (Sprintf04o (Perm mode)) data ok;
          CloseFile p])
      else (Some (ErrOpen p), [Open p false])
  end.

(** The [for _, name := range names] loop of [filepath.Walk]'s
    recursion, [visit] being the recursive call on an entry: the first
    error ends the loop. *)
Definition walkEntries (visit : string -> node -> option error * list Event)
  : list (string * node) -> option error * list Event :=
  fix each (es : list (string * node)) : option error * list Event :=
    match es with
    | [] => (None, [])
    | (name, c) :: es' =>
        let '(e, t) := visit name c in
        match e with
        | Some _ => (e, t)
        | None => let '(e', t') := each es' in (e', t ++ t')
        end
    end.

(** [filepath.Walk]'s recursion: a non-directory is handed to the
    callback; a directory is listed and handed to the callback with the
    listing's error, then its entries are walked in order; the first
    error ends the walk.  (The callback never returns [SkipDir].) *)
Fixpoint walk (p : path) (n : node) : option error * list Event :=
  match n with
  | NoStat => walkFn p n (Some (ErrWalk p))
  | File _ _ _ => walkFn p n None
  | Dir _ listable entries =>
      let '(err1, ev) :=
        walkFn p n (if listable then None else Some (ErrWalk p)) in
      if negb listable then (err1, ev)
      else
        match err1 with
        | Some _ => (err1, ev)
        | None =>
            let '(e, t) :=
              walkEntries (fun name c => walk (Join p [name]) c) entries in
            (e, ev ++ t)
        end
  end.

End Walk.

(** [scpDir]: connect, walk the export directory, close the client on
    the way out. *)
Definition scpDir (fs : node) (rem : Remote)
           (exportDir ingestDir : path)
           (remoteUser remotePassword ip : string)
  : option error * list Event :=
  let addr := (ip ++ ":22")%string in
  if connect_ok rem then
    let '(e, t) := walk exportDir ingestDir rem exportDir fs in
    (e, Connect addr remoteUser remotePassword true :: t ++ [Close])
  else (Some ErrConnect, [Connect addr remoteUser remotePassword false]).

(** A file of a subtree seen from [r] above it. *)
Definition shift (r : path) (f : path * N * string) : path * N * string :=
  (r ++ fst (fst f), snd (fst f), snd f).

(** The regular files below a node in walk order, each with its path
    relative to the node, its mode and its content: the list the
    specification of the sync engine speaks about. *)
Fixpoint files_under (n : node) : list (path * N * string) :=
  match n with
  | File mode data _ => [([], mode, data)]
  | NoStat => []
  | Dir _ _ entries =>
      flat_map (fun e => map (shift [fst e]) (files_under (snd e))) entries
  end.

(** The copy the specification asks for a file: to the ingest directory
    joined with the relative path, with the permission bits as four
    octal digits. *)
Definition expected_copy (exportDir ingestDir : path)
           (f : path * N * string) : path * path * string * string :=
  (Join exportDir (fst (fst f)),
   Join ingestDir (fst (fst f)),
   Sprintf04o (Perm (snd (fst f))),
   snd f).

Definition src_of (c : path * path * string * string) : path :=
  fst (fst (fst c)).
Definition remote_of (c : path * path * string * string) : path :=
  snd (fst (fst c)).
Definition perm_of (c : path * path * string * string) : string :=
  snd (fst c).

(** The copies asked for the files below [n], [n] being at the relative
    path [r]. *)
Definition expected (exportDir ingestDir : path) (r : path) (n : node)
  : list (path * path * string * string) :=
  map (fun f => expected_copy exportDir ingestDir (shift r f)) (files_under n).

(** The copies of a trace that completed, and all copies attempted. *)
Fixpoint copied (t : list Event) : list (path * path * string * string) :=
  match t with
  | [] => []
  | Copy src remote perm data true :: t' => (src, remote, perm, data) :: copied t'
  | _ :: t' => copied t'
  end.

Fixpoint attempted (t : list Event) : list (path * path * string * string) :=
  match t with
  | [] => []
  | Copy src remote perm data _ :: t' => (src, remote, perm, data) :: attempted t'
  | _ :: t' => attempted t'
  end.

(** The local paths the pass opened. *)
Fixpoint opened (t : list Event) : list path :=
  match t with
  | [] => []
  | Open p _ :: t' => p :: opened t'
  | _ :: t' => opened t'
  end.

(** How the result and trace of a walk relate to the list [E] of copies
    asked for, in walk order.  Without error every copy of [E] was made.
    With an error the copies made are the first [k] of [E]; if the error
    is a failed open or a failed copy, it is that of the next file of
    [E], which is the last file opened. *)
Definition outcome (E : list (path * path * string * string))
           (r : option error * list Event) : Prop :=
  let t := snd r in
  match fst r with
  | None => copied t = E /\ attempted t = E /\ opened t = map src_of E
  | Some ErrConnect => False
  | Some (ErrWalk _) =>
      exists k, (k <= List.length E)%nat
        /\ copied t = firstn k E /\ attempted t = firstn k E
        /\ opened t = map src_of (firstn k E)
  | Some (ErrOpen p) =>
      exists k, nth_error (map src_of E) k = Some p
        /\ copied t = firstn k E /\ attempted t = firstn k E
        /\ opened t = map src_of (firstn (S k) E)
  | Some (ErrCopy p rp) =>
      exists k c, nth_error E k = Some c /\ src_of c = p /\ remote_of c = rp
        /\ copied t = firstn k E /\ attempted t = firstn (S k) E
        /\ opened t = map src_of (firstn (S k) E)
  end.

End ScpDir.

(** ** [findAndConnect]: the connectivity manager *)

Module Connectivity.

(** [strings.HasPrefix] and [strings.Contains]. *)
Fixpoint HasPrefix (s prefix : string) : bool :=
  match prefix, s with
  | EmptyString, _ => true
  | String _ _, EmptyString => false
  | String a prefix', String b s' => Ascii.eqb a b && HasPrefix s' prefix'
  end.

Fixpoint Contains (s substr : string) : bool :=
  HasPrefix s substr ||
  match s with
  | EmptyString => false
  | String _ s' => Contains s' substr
  end.

(** [strings.Join]. *)
Fixpoint JoinStrings (elems : list string) (sep : string) : string :=
  match elems with
  | [] => ""
  | [e] => e
  | e :: elems' => (e ++ sep ++ JoinStrings elems' sep)%string
  end.

Definition LF : ascii := ascii_of_nat 10.
Definition CR : ascii := ascii_of_nat 13.

(** [dropCR] of [bufio.ScanLines]: one trailing carriage return is
    removed. *)
Fixpoint dropCR (line : string) : string :=
  match line with
  | EmptyString => EmptyString
  | String c EmptyString => if Ascii.eqb c CR then EmptyString else line
  | String c line' => String c (dropCR line')
  end.

(** [bufio.MaxScanTokenSize]: the scanner's buffer does not grow beyond
    64 KiB, and a line is found only when it fits the buffer together with
    its line feed. *)
Definition MaxScanTokenSize : N := 65536.

Definition fits (line : string) : bool :=
  (N.of_nat (String.length line) <? MaxScanTokenSize)%N.

(** The lines that [bufio.Scanner] yields with its default split
    function: the text is cut at every line feed, a last line without
    line feed is yielded when it is not empty; at a line that does not fit
    the buffer [Scan] returns false, and the loop over the lines ends
    there.  [cur] is the line read so far. *)
Fixpoint scanLinesFrom (cur : string) (s : string) : list string :=
  match s with
  | EmptyString =>
      match cur with
      | EmptyString => []
      | _ => if fits cur then [dropCR cur] else []
      end
  | String c s' =>
      if Ascii.eqb c LF then
        if fits cur then dropCR cur :: scanLinesFrom "" s' else []
      else scanLinesFrom (cur ++ String c "")%string s'
  end.

Definition scanLines (out : string) : list string := scanLinesFrom "" out.

(** What running [nmcli] with the given arguments gives: its standard
    output, or [None] for an error.  Within one call of
    [findAndConnect] no argument list is run twice. *)
Definition Nmcli := list string -> option string.

Definition rescanArgs : list string := ["dev"; "wifi"; "rescan"].
Definition scanArgs : list string :=
  ["-f"; "SSID,SIGNAL,SECURITY"; "dev"; "wifi"].

Definition logExec (args : list string) : Event :=
  Log ("executing command: nmcli " ++ JoinStrings args " ")%string.

Section FindAndConnect.
Variables (nm : Nmcli) (ssid remotePassword : string).

(** What is done for a line that names the network and WPA2. *)
Definition connectTo : bool * list Event :=
  let args := ["con"; "show"; ssid] in
  match nm args with
  | None =>
      let args1 := ["device"; "wifi"; "connect"; ssid] in
      let args2 :=
        if String.eqb remotePassword "" then args1
        else args1 ++ ["remotePassword"; remotePassword] in
      match nm args2 with
      | None =>
          (false,
           [logExec args; Exec "nmcli" args;
            logExec args2; Exec "nmcli" args2;
            Log "connection failed: %v"])
      | Some _ =>
          (true,
           [logExec args; Exec "nmcli" args;
            logExec args2; Exec "nmcli" args2])
      end
  | Some _ =>
      let args1 := ["device"; "wifi"; "connect"; ssid] in
      match nm args1 with
      | None =>
          (false,
           [logExec args; Exec "nmcli" args;
            logExec args1; Exec "nmcli" args1;
            Log "connection failed: %v"])
      | Some _ =>
          (true,
           [logExec args; Exec "nmcli" args;
            logExec args1; Exec "nmcli" args1])
      end
  end.

(** The [for scanner.Scan()] loop: the first line that contains the
    network name and the text WPA2 decides the result. *)
Fixpoint scanLoop (lines : list string) : bool * list Event :=
  match lines with
  | [] => (false, [])
  | line :: rest =>
      if Contains line ssid && Contains line "WPA2" then connectTo
      else scanLoop rest
  end.

Definition findAndConnect : bool * list Event :=
  match nm scanArgs with
  | None =>
      (false,
       [Exec "nmcli" rescanArgs; Exec "nmcli" scanArgs;
        Log "scan failed: %v"])
  | Some out =>
      let '(res, t) := scanLoop (scanLines out) in
      (res, Exec "nmcli" rescanArgs :: Exec "nmcli" scanArgs :: t)
  end.

End FindAndConnect.

Definition checkIfConnected (_ : string) : bool := false.

End Connectivity.

(** ** The watcher loop of [file_transfer_watcher/main.go] *)

Module Main.
Import Time Fs ScpDir.

Definition remoteUser : string := "sr-design".
Definition remotePassword : string := "EC463".
Definition remoteIp : string := "10.193.141.194".

(** [filepath.Join(os.Getenv("HOME"), "export")]. *)
Definition exportDir (home : path) : path := Join home ["export"].

(** [filepath.Join("/", "home", remoteUser, "ingest")]. *)
Definition ingestDir : path := ["home"; remoteUser; "ingest"].

(** What the rest of the world does during one iteration: how other
    processes (the capture service) change the export directory between
    the first listing and the walk, and between the walk and the second
    listing; how the remote side answers; on which paths removing the
    single name succeeds (see [removeAll]). *)
Record World := mkWorld {
  before_walk : node -> node;
  before_cleanup : node -> node;
  remote : Remote;
  remove_ok : path -> bool
}.

Section Iteration.
Variables (home : path) (w : World).

(** What [os.RemoveAll] leaves of the entry [name] of the export
    directory: [None] when it returns nil (the entry is gone, or was not
    there), what it could not remove when it returns an error. *)
Definition remains (name : string) (fs : node) : option node :=
  match findEntry name fs with
  | Some c => removeAll (remove_ok w) (Join (exportDir home) [name]) c
  | None => None
  end.

(** The [for _, e := range entries] loop over the second listing: a
    removal that fails is logged and followed by a sleep of five seconds,
    and the [continue] goes on with the next entry. *)
Fixpoint removeEntries (names : list string) (fs : node)
  : node * list Event :=
  match names with
  | [] => (fs, [])
  | name :: names' =>
      let p := Join (exportDir home) [name] in
      match remains name fs with
      | None =>
          let '(fs', t) := removeEntries names' (removeEntry name fs) in
          (fs', RemoveAll p true :: t)
      | Some c' =>
          let '(fs', t) := removeEntries names' (replaceEntry name c' fs) in
          (fs',
           RemoveAll p false
             :: Log "Error occured on delete: %v"
             :: Sleep (5 * Second) :: t)
      end
  end.

(** One pass through the body of the [for] loop, from the export
    directory as it is when the pass starts to the export directory as
    it is when the pass ends. *)
Definition iteration (fs : node) : node * list Event :=
  let entries := readDir fs in
  match entries with
  | None | Some [] =>
      (fs, [ReadDir (exportDir home) entries;
            Log "Nothing to do; sleeping";
            Sleep (5 * Second)])
  | Some _ =>
      let fs1 := before_walk w fs in
      let '(err, t) :=
        scpDir fs1 (remote w) (exportDir home) ingestDir
               remoteUser remotePassword remoteIp in
      match err with
      | Some _ =>
          (fs1, ReadDir (exportDir home) entries :: t
                ++ [Log "Error occured on scp: %v"; Sleep (5 * Second)])
      | None =>
          let fs2 := before_cleanup w fs1 in
          let entries2 := readDir fs2 in
          match entries2 with
          | None =>
              (fs2, ReadDir (exportDir home) entries :: t
                    ++ [Log "Deleteing local files";
                        ReadDir (exportDir home) entries2;
                        Log "Failed to delete %v";
                        Sleep (5 * Second)])
          | Some names =>
              let '(fs3, t3) := removeEntries names fs2 in
              (fs3, ReadDir (exportDir home) entries :: t
                    ++ [Log "Deleteing local files";
                        ReadDir (exportDir home) entries2]
                    ++ t3
                    ++ [Log "Sleeping for a bit"; Sleep (5 * Minute)])
          end
      end
  end.

End Iteration.

(** The first iterations of [for { ... }], one [World] for each. *)
Fixpoint loop (home : path) (ws : list World) (fs : node)
  : node * list Event :=
  match ws with
  | [] => (fs, [])
  | w :: ws' =>
      let '(fs1, t1) := iteration home w fs in
      let '(fs2, t2) := loop home ws' fs1 in
      (fs2, t1 ++ t2)
  end.

Definition main (home : path) (ws : list World) (fs : node)
  : node * list Event :=
  let '(fs', t) := loop home ws fs in
  (fs', Log "Starting application" :: t).

(** A world in which nothing but the watcher touches the export
    directory. *)
Definition quiet (r : Remote) (rm : path -> bool) : World :=
  mkWorld (fun fs => fs) (fun fs => fs) r rm.

End Main.

(** ** The watcher loop with the connectivity stage

    The earlier [main.go] of the watcher: every iteration first makes sure
    the access point is joined, then transfers; it has no staging check and
    its cleanup is commented out. *)

Module MainWithConnectivity.
Import Time Fs ScpDir Connectivity.
Import Main(remoteUser, remotePassword, exportDir, ingestDir).

(** [remoteUser], [remotePassword], [exportDir] and [ingestDir] are set as
    in [Main]. *)
Definition ssid : string := "pi4".
Definition ip : string := "10.42.0.1".

Definition boolText (b : bool) : string := if b then "true" else "false".

(** The part of the loop body after the connectivity stage. *)
Definition transfer (home : path) (rem : Remote) (fs : node) : list Event :=
  let '(err, t) :=
    scpDir fs rem (exportDir home) ingestDir remoteUser remotePassword ip in
  match err with
  | Some _ => t ++ [Log "Error occured on scp: %v"; Sleep (5 * Second)]
  | None => t ++ [Log "Sleeping for a bit"; Sleep (5 * Minute)]
  end.

(** One pass through the body of the [for] loop. *)
Definition connectedIteration (home : path) (nm : Nmcli) (rem : Remote) (fs : node)
  : list Event :=
  let res := checkIfConnected ssid in
  if negb res then
    let '(res, t) := findAndConnect nm ssid "passyword" in
    let t1 := t ++ [Log ("Found network: " ++ boolText res)%string] in
    if negb res then t1 ++ [Sleep (5 * Second)]
    else t1 ++ transfer home rem fs
  else transfer home rem fs.

End MainWithConnectivity.

(** ** More ways of reading a trace *)

Module Observe.

(** The durations of the sleeps of a trace, in order. *)
Definition sleeps (t : list Event) : list Time.Duration :=
  flat_map (fun e => match e with Sleep d => [d] | _ => [] end) t.

(** The files a trace opened, and the files it closed. *)
Definition opened_ok (t : list Event) : list path :=
  flat_map (fun e => match e with Open p true => [p] | _ => [] end) t.

Definition closed_files (t : list Event) : list path :=
  flat_map (fun e => match e with CloseFile p => [p] | _ => [] end) t.

(** The events on the client itself: [client.Connect] and
    [client.Close]. *)
Definition is_client (e : Event) : bool :=
  match e with
  | Connect _ _ _ _ | Close => true
  | _ => false
  end.

Definition is_log (e : Event) : bool :=
  match e with
  | Log _ => true
  | _ => false
  end.

(** The removals of a trace that failed. *)
Definition failed_removals (t : list Event) : list path :=
  flat_map (fun e => match e with RemoveAll p false => [p] | _ => [] end) t.

End Observe.

(** ** When a pass goes through *)

Module Health.
Import Fs ScpDir.

(** Nothing in the tree at [p] stops the walk: every directory can be
    listed, [Lstat] works on every name, every file can be opened and its
    copy is accepted. *)
Fixpoint healthy (rem : Remote) (p : path) (n : node) : bool :=
  match n with
  | File _ _ openable => openable && copy_ok rem p
  | Dir _ listable entries =>
      listable
      && forallb (fun e => healthy rem (Join p [fst e]) (snd e)) entries
  | NoStat => false
  end.

Fixpoint distinct (names : list string) : bool :=
  match names with
  | [] => true
  | x :: names' => negb (existsb (String.eqb x) names') && distinct names'
  end.

(** No directory of the tree has two entries of the same name, as in
    every file system. *)
Fixpoint wellNamed (n : node) : bool :=
  match n with
  | Dir _ _ entries =>
      distinct (map fst entries) && forallb (fun e => wellNamed (snd e)) entries
  | _ => true
  end.

(** A result without error. *)
Definition succeeded (r : option error * list Event) : bool :=
  match fst r with
  | None => true
  | Some _ => false
  end.

End Health.

(** ** Where a pass fails first *)

Module FirstFailure.
Import Fs ScpDir Health.

(** The two ways in which sending a file fails: [os.Open], or the copy
    (which includes reading the file while it is streamed). *)
Inductive failure :=
| OpenFails
| CopyFails.

Definition same_path (p q : path) : bool :=
  if list_eq_dec string_dec p q then true else false.

(** Over the entries of a directory in listing order: [here] holds of an
    entry and [fine] holds of all the entries before it. *)
Definition firstAmong (here fine : string -> node -> bool)
  : list (string * node) -> bool :=
  fix each (es : list (string * node)) : bool :=
    match es with
    | [] => false
    | (name, c) :: es' => here name c || (fine name c && each es')
    end.

(** The file at [q] fails in the given way, and it is the first thing to
    fail in a walk of the tree at [p]: every directory on the way to it
    can be listed and everything that the walk comes to before it is
    healthy. *)
Fixpoint fails_first_at (rem : Remote) (kind : failure) (q : path)
         (p : path) (n : node) : bool :=
  match n with
  | File _ _ openable =>
      same_path p q
      && match kind with
         | OpenFails => negb openable
         | CopyFails => openable && negb (copy_ok rem p)
         end
  | Dir _ listable entries =>
      listable
      && firstAmong (fun name c => fails_first_at rem kind q (Join p [name]) c)
                    (fun name c => healthy rem (Join p [name]) c)
                    entries
  | NoStat => false
  end.

(** The error that [scpDir] builds for the failure: for a failed copy it
    names the remote path too. *)
Definition failure_error (kind : failure) (q remote : path) : error :=
  match kind with
  | OpenFails => ErrOpen q
  | CopyFails => ErrCopy q remote
  end.

End FirstFailure.

(** ** What a cleanup leaves *)

Module Residue.
Import Fs.

(** What [os.RemoveAll] of each entry in turn leaves of a directory's
    entries. *)
Definition residue (ok : path -> bool) (dir : path) (es : list (string * node))
  : list (string * node) :=
  flat_map (fun e =>
              match removeAll ok (Join dir [fst e]) (snd e) with
              | None => []
              | Some c => [(fst e, c)]
              end) es.

End Residue.

(** ** Runs of a [speedReader] *)

Module SpeedReaderRun.
Import Time SpeedReader.

(** The reader after a sequence of calls. *)
Fixpoint after (s : speedReader) (cs : list call) : speedReader :=
  match cs with
  | [] => s
  | c :: cs' => after (fst (Read s (c_now c) (c_n c) (c_err c))) cs'
  end.

(** The bytes the wrapped reader returned over a sequence of calls. *)
Fixpoint total (cs : list call) : Z :=
  match cs with
  | [] => 0
  | c :: cs' => c_n c + total cs'
  end.

Definition is_newline (o : Output) : bool :=
  match o with Newline => true | Progress _ _ _ => false end.

Definition is_eof (err : option ioerr) : bool :=
  match err with Some EOF => true | _ => false end.

End SpeedReaderRun.

(** ** What [findAndConnect] decides on *)

Module ConnectivitySpec.
Import Connectivity.

(** The test of the scan loop on one line. *)
Definition matches (ssid line : string) : bool :=
  Contains line ssid && Contains line "WPA2".

(** The arguments of the connect command, which depend on whether
    [nmcli con show] knows a profile. *)
Definition connectArgs (nm : Nmcli) (ssid remotePassword : string) : list string :=
  match nm ["con"; "show"; ssid] with
  | Some _ => ["device"; "wifi"; "connect"; ssid]
  | None =>
      if String.eqb remotePassword "" then ["device"; "wifi"; "connect"; ssid]
      else ["device"; "wifi"; "connect"; ssid; "remotePassword"; remotePassword]
  end.

Definition ran_ok (o : option string) : bool :=
  match o with
  | Some _ => true
  | None => false
  end.

(** [s] with [sub] somewhere inside. *)
Definition substring (sub s : string) : Prop :=
  exists a b, s = (a ++ sub ++ b)%string.

(** A line of text that the scanner hands back unchanged: no line feed
    in it and no carriage return at its end. *)
Fixpoint plain_line (line : string) : bool :=
  match line with
  | EmptyString => true
  | String c EmptyString => negb (Ascii.eqb c LF) && negb (Ascii.eqb c CR)
  | String c line' => negb (Ascii.eqb c LF) && plain_line line'
  end.

(** Lines written one after the other, each ended by a line feed. *)
Fixpoint unlines (lines : list string) : string :=
  match lines with
  | [] => ""
  | line :: lines' => (line ++ String LF (unlines lines'))%string
  end.

End ConnectivitySpec.

(** ** How far an iteration of the watcher gets *)

Module MainSpec.
Import Time Fs ScpDir Main Health.

(** The export directory as the second listing sees it. *)
Definition at_cleanup (w : World) (fs : node) : node :=
  before_cleanup w (before_walk w fs).

(** The iteration gets to the cleanup loop: the first listing shows an
    entry, the pass returns nil and the second listing works. *)
Definition reaches_cleanup (home : path) (w : World) (fs : node) : bool :=
  match readDir fs with
  | None | Some [] => false
  | Some _ =>
      succeeded (scpDir (before_walk w fs) (remote w) (exportDir home) ingestDir
                        remoteUser remotePassword remoteIp)
      && match readDir (at_cleanup w fs) with
         | Some _ => true
         | None => false
         end
  end.

(** The names of the second listing. *)
Definition cleanup_names (w : World) (fs : node) : list string :=
  match readDir (at_cleanup w fs) with
  | Some names => names
  | None => []
  end.

End MainSpec.

(** ** The first watcher: [scripts/file_transfer_watcher.go]

    One file with its own [findAndConnect] (no rescan before the scan)
    and a loop that transfers with the directory copy of another
    secure-copy library and then cleans up without looking at the result
    of the removals. *)

Module Scripts.
Import Time Fs Connectivity.
Import Main(exportDir, ingestDir, remoteUser, remotePassword).
Import MainWithConnectivity(ssid, ip, boolText).

(** The events of the program, with the two calls into the library:
    [scp.NewClient] and [CopyDirToRemote]. *)
Inductive Step :=
| Ev (e : Event)
| NewClient (addr user password : string) (ok : bool)
| CopyDirToRemote (src dst : path) (ok : bool).

(** [findAndConnect] of this file: the scan, then the same loop over its
    lines. *)
Definition scriptsFindAndConnect (nm : Nmcli) (ssid remotePassword : string)
  : bool * list Event :=
  match nm scanArgs with
  | None => (false, [Exec "nmcli" scanArgs; Log "scan failed: %v"])
  | Some out =>
      let '(res, t) := scanLoop nm ssid remotePassword (scanLines out) in
      (res, Exec "nmcli" scanArgs :: t)
  end.

(** What the rest of the world does during one iteration. *)
Record ScriptsWorld := mkScriptsWorld {
  s_nmcli : Nmcli;
  s_client_ok : bool;
  s_copy_ok : bool;
  s_before_cleanup : node -> node;
  s_remove_ok : path -> bool
}.

Section Iteration.
Variables (home : path) (w : ScriptsWorld).

(** What [os.RemoveAll] leaves of the entry [name], as in [Main]. *)
Definition scriptsRemains (name : string) (fs : node) : option node :=
  match findEntry name fs with
  | Some c => removeAll (s_remove_ok w) (Join (exportDir home) [name]) c
  | None => None
  end.

(** [for _, e := range entries { os.RemoveAll(...) }]: the error is
    dropped. *)
Fixpoint scriptsRemoveEntries (names : list string) (fs : node)
  : node * list Step :=
  match names with
  | [] => (fs, [])
  | name :: names' =>
      let p := Join (exportDir home) [name] in
      match scriptsRemains name fs with
      | None =>
          let '(fs', t) := scriptsRemoveEntries names' (removeEntry name fs) in
          (fs', Ev (RemoveAll p true) :: t)
      | Some c' =>
          let '(fs', t) := scriptsRemoveEntries names' (replaceEntry name c' fs) in
          (fs', Ev (RemoveAll p false) :: t)
      end
  end.

(** The loop body after the connectivity stage. *)
Definition scriptsTransfer (fs : node) : node * list Step :=
  if s_client_ok w then
    if s_copy_ok w then
      let fs2 := s_before_cleanup w fs in
      let entries := readDir fs2 in
      match entries with
      | None =>
          (fs2,
           [NewClient ip remoteUser remotePassword true;
            Ev (Log "Transferring files...");
            CopyDirToRemote (exportDir home) ingestDir true;
            Ev (Log "Transfer complete");
            Ev (Log "Deleteing local files");
            Ev (ReadDir (exportDir home) entries);
            Ev (Log "Failed to delete %v");
            Ev (Sleep (5 * Second))])
      | Some names =>
          let '(fs3, t3) := scriptsRemoveEntries names fs2 in
          (fs3,
           [NewClient ip remoteUser remotePassword true;
            Ev (Log "Transferring files...");
            CopyDirToRemote (exportDir home) ingestDir true;
            Ev (Log "Transfer complete");
            Ev (Log "Deleteing local files");
            Ev (ReadDir (exportDir home) entries)]
             ++ t3
             ++ [Ev (Log "Sleeping for a bit"); Ev (Sleep (5 * Minute))])
      end
    else
      (fs,
       [NewClient ip remoteUser remotePassword true;
        Ev (Log "Transferring files...");
        CopyDirToRemote (exportDir home) ingestDir false;
        Ev (Log "Failed to transfer files %v");
        Ev (Sleep (5 * Second))])
  else
    (fs,
     [NewClient ip remoteUser remotePassword false;
      Ev (Log "Failed to connect to server %v");
      Ev (Sleep (5 * Second))]).

(** One pass through the body of the [for] loop. *)
Definition scriptsIteration (fs : node) : node * list Step :=
  let res := checkIfConnected ssid in
  if negb res then
    let '(res, t) := scriptsFindAndConnect (s_nmcli w) ssid "passyword" in
    let t1 := map Ev (t ++ [Log ("Found network: " ++ boolText res)%string]) in
    if negb res then (fs, t1 ++ [Ev (Sleep (5 * Second))])
    else
      let '(fs', t2) := scriptsTransfer fs in
      (fs', t1 ++ t2)
  else scriptsTransfer fs.

End Iteration.

(** The events of a trace of this program that are events of the
    shared kind. *)
Definition events (t : list Step) : list Event :=
  flat_map (fun s => match s with Ev e => [e] | _ => [] end) t.

(** The iteration comes to the cleanup loop. *)
Definition scripts_reaches_cleanup (w : ScriptsWorld) (fs : node) : bool :=
  fst (scriptsFindAndConnect (s_nmcli w) ssid "passyword")
  && s_client_ok w && s_copy_ok w
  && match readDir (s_before_cleanup w fs) with
     | Some _ => true
     | None => false
     end.

End Scripts.

(** * Properties *)

(** ** The progress reporter *)

Module SpeedReaderFacts.
Import Time SpeedReader.

#[local] Arguments Sub : simpl never.
#[local] Arguments wrap64 : simpl never.

Lemma Sub_le_diff (a b : Z) : b <= a -> Sub (Mono a) (Mono b) <= a - b.
Proof.
  intros H. unfold Sub, minDuration, maxDuration. lia.
Qed.

(** A call of [Read] leaves at most one progress line, and it leaves
    one exactly when [print_times] counts the call. *)
Lemma Read_progress_count (s : speedReader) now n err :
  List.length (filter is_progress (snd (Read s now n err)))
  = if existsb is_progress (snd (Read s now n err)) then 1%nat else 0%nat.
Proof.
  unfold Read; cbn.
  destruct (minDelta s <=? Sub (Mono now) (lastPrint s));
    [destruct (0 <? Sub (Mono now) (start s))|];
    destruct err as [[|]|]; reflexivity.
Qed.

Lemma Read_minDelta (s : speedReader) now n err :
  minDelta (fst (Read s now n err)) = minDelta s.
Proof.
  unfold Read; cbn.
  destruct (minDelta s <=? Sub (Mono now) (lastPrint s)); reflexivity.
Qed.

Lemma Read_start (s : speedReader) now n err :
  start (fst (Read s now n err)) = start s.
Proof.
  unfold Read; cbn.
  destruct (minDelta s <=? Sub (Mono now) (lastPrint s)); reflexivity.
Qed.

(** After a call at [now], [lastPrint] is [now] if the call printed, and
    in any case it is the old value or [now]. *)
Lemma Read_lastPrint (s : speedReader) now n err :
  (existsb is_progress (snd (Read s now n err)) = true ->
   lastPrint (fst (Read s now n err)) = Mono now
   /\ minDelta s <= Sub (Mono now) (lastPrint s))
  /\ (lastPrint (fst (Read s now n err)) = Mono now
      \/ lastPrint (fst (Read s now n err)) = lastPrint s).
Proof.
  unfold Read; cbn.
  destruct (minDelta s <=? Sub (Mono now) (lastPrint s)) eqn:E; cbn.
  - apply Z.leb_le in E. split; [intros _; split; [reflexivity|exact E]|now left].
  - split; [|now right]. destruct err as [[|]|]; discriminate.
Qed.

Lemma reads_cons (s : speedReader) c cs :
  reads s (c :: cs)
  = (c_now c, snd (Read s (c_now c) (c_n c) (c_err c)))
      :: reads (fst (Read s (c_now c) (c_n c) (c_err c))) cs.
Proof.
  cbn [reads]. destruct (Read s (c_now c) (c_n c) (c_err c)); reflexivity.
Qed.

Lemma nondecreasing_tail t ts : nondecreasing (t :: ts) -> nondecreasing ts.
Proof. cbn. tauto. Qed.

Lemma nondecreasing_head t ts :
  nondecreasing (t :: ts) -> Forall (fun u => t <= u) ts.
Proof.
  revert t. induction ts as [|u ts IH]; intros t H; constructor.
  - cbn in H. tauto.
  - destruct H as [Htu H]. specialize (IH u H).
    eapply Forall_impl; [|exact IH]. cbn. intros; lia.
Qed.

(** Every print of a run lies in the span of its calls. *)
Lemma print_times_in (s : speedReader) cs :
  incl (print_times (reads s cs)) (map c_now cs).
Proof.
  revert s. induction cs as [|c cs IH]; intros s.
  - cbn. apply incl_refl.
  - rewrite reads_cons. unfold print_times. cbn [filter snd].
    destruct (existsb is_progress _); cbn [map fst].
    + apply incl_cons; [now left|]. apply incl_tl, IH.
    + apply incl_tl, IH.
Qed.

(** From a state whose [lastPrint] is the reading [p], every later print
    is at least [minDelta] after [p]. *)
Lemma prints_after_lastPrint cs : forall (s : speedReader) p,
  lastPrint s = Mono p ->
  Forall (fun u => p <= u) (map c_now cs) ->
  nondecreasing (map c_now cs) ->
  Forall (fun u => minDelta s <= u - p) (print_times (reads s cs)).
Proof.
  induction cs as [|c cs IH]; intros s p Hl Hp Hmono.
  - constructor.
  - rewrite reads_cons. unfold print_times. cbn [filter snd].
    pose proof (Read_lastPrint s (c_now c) (c_n c) (c_err c)) as [Hpr Hlast].
    pose proof (Read_minDelta s (c_now c) (c_n c) (c_err c)) as Hd.
    cbn [map] in Hp, Hmono.
    pose proof (Forall_inv Hp) as Hpc. cbn beta in Hpc.
    apply Forall_inv_tail in Hp.
    pose proof (nondecreasing_head _ _ Hmono) as Hhead.
    apply nondecreasing_tail in Hmono.
    assert (Htail : Forall (fun u => minDelta s <= u - p)
              (print_times (reads (fst (Read s (c_now c) (c_n c) (c_err c))) cs))).
    { destruct Hlast as [Hnow | Hsame].
      - specialize (IH _ (c_now c) Hnow Hhead Hmono). rewrite Hd in IH.
        eapply Forall_impl; [|exact IH]. cbn. intros; lia.
      - rewrite Hl in Hsame.
        specialize (IH _ p Hsame Hp Hmono). now rewrite Hd in IH. }
    destruct (existsb is_progress _) eqn:E; cbn [map fst]; [|exact Htail].
    constructor; [|exact Htail].
    destruct (Hpr eq_refl) as [_ Hge]. rewrite Hl in Hge.
    pose proof (Sub_le_diff (c_now c) p Hpc). lia.
Qed.

Lemma separated_cons d t ts :
  Forall (fun u => d <= u - t) ts -> separated d ts -> separated d (t :: ts).
Proof.
  intros HF Hs. cbn [separated]. split; [|exact Hs].
  destruct ts; [exact I|]. exact (Forall_inv HF).
Qed.

(** Consecutive prints of a run are at least [minDelta] apart. *)
Lemma prints_separated cs : forall (s : speedReader),
  nondecreasing (map c_now cs) ->
  separated (minDelta s) (print_times (reads s cs)).
Proof.
  induction cs as [|c cs IH]; intros s Hmono.
  - exact I.
  - rewrite reads_cons. unfold print_times. cbn [filter snd].
    pose proof (Read_lastPrint s (c_now c) (c_n c) (c_err c)) as [Hpr _].
    pose proof (Read_minDelta s (c_now c) (c_n c) (c_err c)) as Hd.
    cbn [map] in Hmono.
    pose proof (nondecreasing_head _ _ Hmono) as Hhead.
    apply nondecreasing_tail in Hmono.
    specialize (IH (fst (Read s (c_now c) (c_n c) (c_err c))) Hmono).
    rewrite Hd in IH.
    destruct (existsb is_progress _) eqn:E; cbn [map fst]; [|exact IH].
    apply separated_cons; [|exact IH].
    destruct (Hpr eq_refl) as [Hnow _].
    pose proof (prints_after_lastPrint cs _ _ Hnow Hhead Hmono) as H.
    now rewrite Hd in H.
Qed.

Lemma last_cons (u : Z) ts : forall t, List.last (u :: ts) t = List.last ts u.
Proof.
  revert u. induction ts as [|x ts IH]; intros u t; [reflexivity|].
  change (List.last (u :: x :: ts) t) with (List.last (x :: ts) t).
  now rewrite (IH x t), (IH x u).
Qed.

(** In a list whose consecutive entries are [d] apart, the last entry is
    as many times [d] after the first as there are entries after the
    first. *)
Lemma separated_span d ts : forall t,
  separated d (t :: ts) ->
  Z.of_nat (List.length ts) * d <= List.last ts t - t.
Proof.
  induction ts as [|u ts IH]; intros t H.
  - cbn. lia.
  - destruct H as [Htu H]. specialize (IH u H).
    rewrite last_cons. cbn [List.length]. lia.
Qed.

Lemma nondecreasing_last t ts :
  nondecreasing (t :: ts) -> Forall (fun u => u <= List.last ts t) (t :: ts).
Proof.
  revert t. induction ts as [|u ts IH]; intros t H.
  - cbn. constructor; [lia|constructor].
  - pose proof (nondecreasing_head _ _ H) as Hh.
    destruct H as [Htu H]. specialize (IH u H).
    rewrite last_cons. constructor; [|exact IH].
    pose proof (Forall_inv IH) as Hu. cbn beta in Hu. lia.
Qed.

Lemma progress_lines_length (s : speedReader) cs :
  List.length (progress_lines (reads s cs))
  = List.length (print_times (reads s cs)).
Proof.
  revert s. induction cs as [|c cs IH]; intros s; [reflexivity|].
  rewrite reads_cons. unfold progress_lines, print_times in *.
  cbn [map snd List.concat filter].
  rewrite filter_app, length_app, Read_progress_count, IH.
  destruct (existsb is_progress _); reflexivity.
Qed.

End SpeedReaderFacts.

Module SpeedReaderClaims.
Import Time SpeedReader SpeedReaderFacts.

#[local] Arguments Sub : simpl never.
#[local] Arguments wrap64 : simpl never.

(** C7.  Progress lines are throttled: on a clock that does not run
    backwards, any two consecutive progress prints of a reader are at
    least [minDelta] apart, and so the number of progress lines of a run
    is at most the time between its first and its last read divided by
    [minDelta], plus one, whatever the number of reads. *)
Theorem progress_throttled (s : speedReader) (c0 : call) (cs : list call) :
  nondecreasing (map c_now (c0 :: cs)) ->
  0 < minDelta s ->
  separated (minDelta s) (print_times (reads s (c0 :: cs)))
  /\ Z.of_nat (List.length (progress_lines (reads s (c0 :: cs))))
     <= (List.last (map c_now cs) (c_now c0) - c_now c0) / minDelta s + 1.
Proof.
  intros Hmono Hd.
  pose proof (prints_separated (c0 :: cs) s Hmono) as Hsep.
  split; [exact Hsep|].
  rewrite progress_lines_length.
  pose proof (print_times_in s (c0 :: cs)) as Hin.
  pose proof (nondecreasing_head _ _ Hmono) as Hlo.
  pose proof (nondecreasing_last _ _ Hmono) as Hhi.
  change (map c_now (c0 :: cs)) with (c_now c0 :: map c_now cs) in Hin.
  assert (Hspan : c_now c0 <= List.last (map c_now cs) (c_now c0)).
  { exact (Forall_inv Hhi). }
  destruct (print_times (reads s (c0 :: cs))) as [|t rest] eqn:E.
  - assert (0 <= (List.last (map c_now cs) (c_now c0) - c_now c0) / minDelta s)
      by (apply Z.div_pos; lia).
    cbn [List.length]. lia.
  - pose proof (separated_span _ _ _ Hsep) as Hcount.
    assert (Ht : c_now c0 <= t).
    { destruct (Hin t (or_introl eq_refl)) as [<-|Ht]; [lia|].
      exact (proj1 (Forall_forall _ _) Hlo _ Ht). }
    assert (Hl : List.last rest t <= List.last (map c_now cs) (c_now c0)).
    { apply (proj1 (Forall_forall _ _) Hhi).
      apply Hin. destruct rest as [|r rest'] using rev_ind.
      - now left.
      - rewrite last_last. right. apply in_or_app. right. now left. }
    cbn [List.length]. rewrite Nat2Z.inj_succ.
    assert (Z.of_nat (List.length rest)
            <= (List.last (map c_now cs) (c_now c0) - c_now c0) / minDelta s).
    { apply Z.div_le_lower_bound; [exact Hd|]. lia. }
    lia.
Qed.

(** A reader made by [passThru] at clock reading 0 and read at 0, 50,
    120, 130 and 250 milliseconds. *)
Lemma progress_throttled_witness :
  let s := passThru "img.jpg" 0 in
  let c0 := mkCall 0 4096 None in
  let cs := [mkCall (50 * Millisecond) 4096 None;
             mkCall (120 * Millisecond) 4096 None;
             mkCall (130 * Millisecond) 4096 None;
             mkCall (250 * Millisecond) 100 (Some EOF)] in
  separated (minDelta s) (print_times (reads s (c0 :: cs)))
  /\ Z.of_nat (List.length (progress_lines (reads s (c0 :: cs))))
     <= (List.last (map c_now cs) (c_now c0) - c_now c0) / minDelta s + 1.
Proof.
  intros s c0 cs.
  apply (progress_throttled s c0 cs).
  - vm_compute. repeat split; discriminate.
  - reflexivity.
Defined.

(** C10.  In every call of [Read] of every run, a progress line is
    printed only with a strictly positive elapsed time, which is the time
    since [start] that the throughput is divided by: no division by zero
    and no progress line at zero elapsed time. *)
Theorem division_guarded (s : speedReader) (cs : list call) :
  Forall (fun e => Forall (sound_divisor (start s) (fst e)) (snd e))
         (reads s cs).
Proof.
  revert s. induction cs as [|c cs IH]; intros s; [constructor|].
  rewrite reads_cons. constructor.
  - cbn [fst snd]. unfold Read. cbn [minDelta lastPrint start file counter].
    destruct (minDelta s <=? Sub (Mono (c_now c)) (lastPrint s));
      [destruct (0 <? Sub (Mono (c_now c)) (start s)) eqn:E|];
      destruct (c_err c) as [[|]|]; cbn [snd app];
      repeat constructor; now apply Z.ltb_lt.
  - specialize (IH (fst (Read s (c_now c) (c_n c) (c_err c)))).
    now rewrite Read_start in IH.
Qed.

End SpeedReaderClaims.

(** ** The directory sync engine *)

Module ScpDirFacts.
Import Fs Fmt ScpDir.

Lemma Rel_app (base r : path) : Rel base (base ++ r) = Some r.
Proof.
  induction base as [|b base IH]; cbn; [reflexivity|].
  now rewrite String.eqb_refl.
Qed.

Lemma copied_app t1 t2 : copied (t1 ++ t2) = copied t1 ++ copied t2.
Proof.
  induction t1 as [|e t1 IH]; [reflexivity|].
  destruct e as [| | | | | | |? ? ? ? []| |]; cbn; now rewrite ?IH.
Qed.

Lemma attempted_app t1 t2 : attempted (t1 ++ t2) = attempted t1 ++ attempted t2.
Proof.
  induction t1 as [|e t1 IH]; [reflexivity|].
  destruct e; cbn; now rewrite ?IH.
Qed.

Lemma opened_app t1 t2 : opened (t1 ++ t2) = opened t1 ++ opened t2.
Proof.
  induction t1 as [|e t1 IH]; [reflexivity|].
  destruct e; cbn; now rewrite ?IH.
Qed.

Section Prefix.
Context {A : Type}.

Lemma firstn_app_left (k : nat) (l1 l2 : list A) :
  (k <= List.length l1)%nat -> firstn k (l1 ++ l2) = firstn k l1.
Proof.
  intros H. rewrite firstn_app.
  replace (k - List.length l1)%nat with 0%nat by lia.
  cbn. apply app_nil_r.
Qed.

Lemma firstn_app_right (k : nat) (l1 l2 : list A) :
  firstn (List.length l1 + k) (l1 ++ l2) = l1 ++ firstn k l2.
Proof.
  rewrite firstn_app, firstn_all2 by lia.
  now replace (List.length l1 + k - List.length l1)%nat with k by lia.
Qed.

Lemma nth_error_app_right (k : nat) (l1 l2 : list A) :
  nth_error (l1 ++ l2) (List.length l1 + k) = nth_error l2 k.
Proof.
  rewrite nth_error_app2 by lia.
  now replace (List.length l1 + k - List.length l1)%nat with k by lia.
Qed.

Lemma nth_error_lt (k : nat) (l : list A) a :
  nth_error l k = Some a -> (S k <= List.length l)%nat.
Proof.
  intros H.
  assert (k < List.length l)%nat by (apply nth_error_Some; congruence).
  lia.
Qed.
End Prefix.

(** A walk that failed inside [E1] failed the same way inside
    [E1 ++ E2]. *)
Lemma outcome_stop E1 E2 err t :
  outcome E1 (Some err, t) -> outcome (E1 ++ E2) (Some err, t).
Proof.
  unfold outcome; cbn [fst snd].
  destruct err as [|p|p|p rp]; [tauto| | |].
  - intros (k & Hk & Hc & Ha & Ho). exists k.
    rewrite length_app, !firstn_app_left by lia.
    repeat split; [lia|assumption..].
  - intros (k & Hn & Hc & Ha & Ho). exists k.
    pose proof (nth_error_lt _ _ _ Hn) as Hk. rewrite length_map in Hk.
    rewrite map_app, nth_error_app1 by (rewrite length_map; lia).
    rewrite !firstn_app_left by lia. now repeat split.
  - intros (k & c & Hn & Hs & Hr & Hc & Ha & Ho). exists k, c.
    pose proof (nth_error_lt _ _ _ Hn) as Hk.
    rewrite nth_error_app1 by lia.
    rewrite !firstn_app_left by lia. now repeat split.
Qed.

(** A walk of [E2] after a walk of [E1] that went through. *)
Lemma outcome_seq E1 E2 t1 e t2 :
  outcome E1 (None, t1) -> outcome E2 (e, t2) ->
  outcome (E1 ++ E2) (e, t1 ++ t2).
Proof.
  unfold outcome; cbn [fst snd].
  intros (Hc1 & Ha1 & Ho1).
  rewrite copied_app, attempted_app, opened_app, Hc1, Ha1, Ho1.
  destruct e as [[|p|p|p rp]|]; [tauto| | | |].
  - intros (k & Hk & Hc & Ha & Ho). exists (List.length E1 + k)%nat.
    rewrite length_app, firstn_app_right, map_app, Hc, Ha, Ho.
    repeat split; lia.
  - intros (k & Hn & Hc & Ha & Ho). exists (List.length E1 + k)%nat.
    rewrite firstn_app_right, Hc, Ha, Ho.
    replace (S (List.length E1 + k)) with (List.length E1 + S k)%nat by lia.
    rewrite firstn_app_right, !map_app.
    repeat split.
    rewrite <- (length_map src_of E1). now rewrite nth_error_app_right.
  - intros (k & c & Hn & Hs & Hr & Hc & Ha & Ho).
    exists (List.length E1 + k)%nat, c.
    rewrite firstn_app_right, Hc, Ha, Ho, nth_error_app_right.
    replace (S (List.length E1 + k)) with (List.length E1 + S k)%nat by lia.
    rewrite firstn_app_right, !map_app.
    now repeat split.
  - intros (Hc & Ha & Ho). now rewrite Hc, Ha, Ho, map_app.
Qed.

Section Walk.
Variables (exportDir ingestDir : path) (rem : Remote).

Lemma shift_shift r name f : shift r (shift [name] f) = shift (r ++ [name]) f.
Proof.
  unfold shift; cbn [fst snd]. now rewrite <- app_assoc.
Qed.

Lemma expected_Dir r m l es :
  expected exportDir ingestDir r (Dir m l es)
  = flat_map (fun e => expected exportDir ingestDir (r ++ [fst e]) (snd e)) es.
Proof.
  unfold expected. cbn [files_under].
  induction es as [|e es IH]; [reflexivity|].
  cbn [flat_map]. rewrite map_app, IH. f_equal.
  rewrite map_map. apply map_ext. intros f. now rewrite shift_shift.
Qed.

Lemma walkEntries_outcome r es :
  Forall (fun e => forall r',
            outcome (expected exportDir ingestDir r' (snd e))
                    (walk exportDir ingestDir rem (exportDir ++ r') (snd e))) es ->
  outcome
    (flat_map (fun e => expected exportDir ingestDir (r ++ [fst e]) (snd e)) es)
    (walkEntries (fun name c =>
                    walk exportDir ingestDir rem (Join (exportDir ++ r) [name]) c)
                 es).
Proof.
  induction 1 as [|[name c] es Hc _ IH].
  - cbn. repeat split.
  - cbn [walkEntries flat_map fst snd] in *.
    specialize (Hc (r ++ [name])).
    unfold Join. rewrite <- app_assoc.
    destruct (walk exportDir ingestDir rem (exportDir ++ r ++ [name]) c)
      as [[err|] t] eqn:Ew.
    + now apply outcome_stop.
    + destruct (walkEntries _ es) as [e' t'] eqn:Ee.
      now apply outcome_seq.
Qed.

(** The walk of a subtree at the relative path [r] relates to the
    copies asked for its files. *)
Lemma walk_outcome (n : node) : forall r,
  outcome (expected exportDir ingestDir r n)
          (walk exportDir ingestDir rem (exportDir ++ r) n).
Proof.
  induction n as [m d o|m l es IH|] using node_nested_ind; intros r.
  - cbn [walk walkFn]. rewrite Rel_app.
    unfold expected, expected_copy, shift, Join; cbn [files_under map fst snd].
    rewrite app_nil_r.
    destruct o; [destruct (copy_ok rem (exportDir ++ r)) eqn:Ec|];
      unfold outcome; cbn [fst snd copied attempted opened].
    + repeat split.
    + exists 0%nat. eexists. repeat split.
    + exists 0%nat. repeat split.
  - rewrite expected_Dir. cbn [walk walkFn].
    destruct l; cbn [negb].
    + pose proof (walkEntries_outcome r es IH) as H.
      destruct (walkEntries _ es) as [e t]. exact H.
    + exists 0%nat. repeat split; cbn; lia.
  - cbn. exists 0%nat. repeat split; cbn; lia.
Qed.

End Walk.

(** The same for a whole pass of [scpDir] that got its connection. *)
Lemma scpDir_outcome fs rem exportDir ingestDir user pw ip :
  connect_ok rem = true ->
  outcome (map (expected_copy exportDir ingestDir) (files_under fs))
          (scpDir fs rem exportDir ingestDir user pw ip).
Proof.
  intros Hc. unfold scpDir. rewrite Hc.
  pose proof (walk_outcome exportDir ingestDir rem fs []) as H.
  rewrite app_nil_r in H.
  assert (HE : expected exportDir ingestDir [] fs
               = map (expected_copy exportDir ingestDir) (files_under fs)).
  { unfold expected. apply map_ext. now intros [[? ?] ?]. }
  rewrite HE in H.
  destruct (walk exportDir ingestDir rem exportDir fs) as [e t].
  unfold outcome in *; cbn [fst snd] in *.
  change (Connect (ip ++ ":22") user pw true :: t ++ [Close])
    with ([Connect (ip ++ ":22") user pw true] ++ t ++ [Close]).
  rewrite !copied_app, !attempted_app, !opened_app; cbn [copied attempted opened].
  now rewrite !app_nil_r.
Qed.

(** The permission bits fit in three octal digits. *)
Lemma Perm_bound (mode : N) : (Perm mode < 512)%N.
Proof.
  unfold Perm, ModePerm. change 511%N with (N.ones 9).
  rewrite N.land_ones. now apply N.mod_lt.
Qed.

Lemma mode_string_table :
  forallb mode_string_ok (map N.of_nat (seq 0 512)) = true.
Proof. vm_compute. reflexivity. Qed.

(** The mode string of permission bits: four octal digits that read
    back as the bits. *)
Lemma mode_string (mode : N) :
  String.length (Sprintf04o (Perm mode)) = 4%nat
  /\ all_octal (Sprintf04o (Perm mode)) = true
  /\ octal_value (Sprintf04o (Perm mode)) = Perm mode.
Proof.
  pose proof (Perm_bound mode) as Hb.
  pose proof (proj1 (forallb_forall _ _) mode_string_table (Perm mode)) as H.
  assert (Hin : In (Perm mode) (map N.of_nat (seq 0 512))).
  { apply in_map_iff. exists (N.to_nat (Perm mode)).
    split; [apply N2Nat.id|]. apply in_seq. lia. }
  specialize (H Hin). unfold mode_string_ok in H.
  apply andb_prop in H as [H H3]. apply andb_prop in H as [H1 H2].
  repeat split; [now apply Nat.eqb_eq|assumption|now apply N.eqb_eq].
Qed.

End ScpDirFacts.

Module ScpDirClaims.
Import Fs Fmt ScpDir ScpDirFacts.

(** C3.  When a pass of [scpDir] goes through, the copies it made are,
    in walk order, exactly one for every regular file under the local
    directory and none for a directory: each from the file's path to the
    remote directory joined with the file's path relative to the local
    directory, with the permission bits of the file's mode written as
    four octal digits. *)
Theorem scpDir_sends_every_file fs rem exportDir ingestDir user pw ip t :
  scpDir fs rem exportDir ingestDir user pw ip = (None, t) ->
  copied t = map (expected_copy exportDir ingestDir) (files_under fs)
  /\ attempted t = copied t
  /\ Forall (fun c => exists rel,
               Rel exportDir (src_of c) = Some rel
               /\ remote_of c = Join ingestDir rel) (copied t)
  /\ Forall (fun f =>
               let perm := perm_of (expected_copy exportDir ingestDir f) in
               String.length perm = 4%nat
               /\ all_octal perm = true
               /\ octal_value perm = Perm (snd (fst f))) (files_under fs).
Proof.
  intros H.
  assert (Hc : connect_ok rem = true).
  { unfold scpDir in H. destruct (connect_ok rem); [reflexivity|discriminate]. }
  pose proof (scpDir_outcome fs rem exportDir ingestDir user pw ip Hc) as Ho.
  rewrite H in Ho. destruct Ho as (Hcop & Hatt & _). cbn [snd] in *.
  repeat split.
  - exact Hcop.
  - congruence.
  - rewrite Hcop. apply Forall_forall. intros c Hin.
    apply in_map_iff in Hin as (f & <- & _).
    exists (fst (fst f)). unfold expected_copy, src_of, remote_of, Join; cbn [fst snd].
    split; [apply Rel_app|reflexivity].
  - apply Forall_forall. intros f _.
    unfold expected_copy, perm_of; cbn [fst snd]. apply mode_string.
Qed.

(** A pass over an export directory with a picture, a subdirectory with
    a second picture and an empty subdirectory. *)
Lemma scpDir_sends_every_file_witness :
  let fs :=
    Dir 16877 true
        [("a.jpg", File 33188 "AAAA" true);
         ("flight1", Dir 16877 true [("b.jpg", File 33152 "BB" true)]);
         ("empty", Dir 16877 true [])] in
  let rem := mkRemote true (fun _ => true) in
  let exportDir := ["home"; "pi"; "export"] in
  let ingestDir := ["home"; "sr-design"; "ingest"] in
  let t := snd (scpDir fs rem exportDir ingestDir "sr-design" "EC463" "10.193.141.194") in
  copied t = map (expected_copy exportDir ingestDir) (files_under fs)
  /\ attempted t = copied t
  /\ Forall (fun c => exists rel,
               Rel exportDir (src_of c) = Some rel
               /\ remote_of c = Join ingestDir rel) (copied t)
  /\ Forall (fun f =>
               let perm := perm_of (expected_copy exportDir ingestDir f) in
               String.length perm = 4%nat
               /\ all_octal perm = true
               /\ octal_value perm = Perm (snd (fst f))) (files_under fs).
Proof.
  intros fs rem exportDir ingestDir t.
  apply (scpDir_sends_every_file fs rem exportDir ingestDir
           "sr-design" "EC463" "10.193.141.194" t).
  reflexivity.
Defined.

End ScpDirClaims.

(** ** The watcher loop *)

Module MainFacts.
Import Time Fs ScpDir ScpDirFacts Trace Main.

Lemma walkFn_session exportDir ingestDir rem p n err :
  Forall (fun e => is_session e = true)
         (snd (walkFn exportDir ingestDir rem p n err)).
Proof.
  unfold walkFn. destruct err; [constructor|].
  destruct n as [m d [|]| |]; cbn [snd]; repeat constructor.
Qed.

Lemma walkEntries_session visit es :
  Forall (fun e => Forall (fun ev => is_session ev = true)
                          (snd (visit (fst e) (snd e)))) es ->
  Forall (fun ev => is_session ev = true) (snd (walkEntries visit es)).
Proof.
  induction 1 as [|[name c] es Hc _ IH]; [constructor|].
  cbn [walkEntries fst snd] in *.
  destruct (visit name c) as [[err|] t1]; [exact Hc|].
  destruct (walkEntries visit es) as [e' t']. cbn [snd] in *.
  apply Forall_app. now split.
Qed.

Lemma walk_session exportDir ingestDir rem (n : node) : forall p,
  Forall (fun e => is_session e = true)
         (snd (walk exportDir ingestDir rem p n)).
Proof.
  induction n as [m d o|m l es IH|] using node_nested_ind; intros p.
  - apply walkFn_session.
  - cbn [walk walkFn]. destruct l; cbn [negb snd]; [|constructor].
    pose proof (walkEntries_session
                  (fun name c => walk exportDir ingestDir rem (Join p [name]) c) es)
      as H.
    destruct (walkEntries _ es) as [e t]. cbn [snd app] in *.
    apply H. eapply Forall_impl; [|exact IH]. intros [name c] Hc. apply Hc.
  - apply walkFn_session.
Qed.

(** A pass of [scpDir] does nothing but open its session and send
    files. *)
Lemma scpDir_session fs rem exportDir ingestDir user pw ip :
  Forall (fun e => is_session e = true)
         (snd (scpDir fs rem exportDir ingestDir user pw ip)).
Proof.
  unfold scpDir. destruct (connect_ok rem); [|repeat constructor].
  pose proof (walk_session exportDir ingestDir rem fs exportDir) as H.
  destruct (walk exportDir ingestDir rem exportDir fs) as [e t].
  cbn [snd] in *. constructor; [reflexivity|].
  apply Forall_app. split; [exact H|repeat constructor].
Qed.

Lemma removals_app t1 t2 : removals (t1 ++ t2) = removals t1 ++ removals t2.
Proof.
  induction t1 as [|e t1 IH]; [reflexivity|].
  destruct e; cbn; now rewrite ?IH.
Qed.

Lemma removed_app t1 t2 : removed (t1 ++ t2) = removed t1 ++ removed t2.
Proof.
  induction t1 as [|e t1 IH]; [reflexivity|].
  destruct e as [| | | | | | | | |? []]; cbn; now rewrite ?IH.
Qed.

Lemma session_no_removals t :
  Forall (fun e => is_session e = true) t -> removals t = [].
Proof.
  induction 1 as [|e t He _ IH]; [reflexivity|].
  destruct e; try discriminate He; exact IH.
Qed.

Lemma session_no_exec t :
  Forall (fun e => is_session e = true) t -> existsb is_exec t = false.
Proof.
  induction 1 as [|e t He _ IH]; [reflexivity|].
  destruct e; try discriminate He; exact IH.
Qed.

Section Cleanup.
Variables (home : path) (w : World).

Lemma removeEntries_cons name names fs :
  removeEntries home w (name :: names) fs
  = match remains home w name fs with
    | None =>
        (fst (removeEntries home w names (removeEntry name fs)),
         RemoveAll (Join (exportDir home) [name]) true
           :: snd (removeEntries home w names (removeEntry name fs)))
    | Some c' =>
        (fst (removeEntries home w names (replaceEntry name c' fs)),
         RemoveAll (Join (exportDir home) [name]) false
           :: Log "Error occured on delete: %v"
           :: Sleep (5 * Second)
           :: snd (removeEntries home w names (replaceEntry name c' fs)))
    end.
Proof.
  cbn [removeEntries]. cbv zeta.
  destruct (remains home w name fs) as [c'|];
    [destruct (removeEntries home w names (replaceEntry name c' fs))
    |destruct (removeEntries home w names (removeEntry name fs))]; reflexivity.
Qed.

(** The cleanup loop attempts every listed entry, in order. *)
Lemma removeEntries_removals names : forall fs,
  removals (snd (removeEntries home w names fs))
  = map (fun name => Join (exportDir home) [name]) names.
Proof.
  induction names as [|name names IH]; intros fs; [reflexivity|].
  rewrite removeEntries_cons.
  destruct (remains home w name fs); cbn [snd removals map]; now rewrite IH.
Qed.

Lemma removeEntries_logged names : forall fs,
  failures_logged (snd (removeEntries home w names fs)) = true.
Proof.
  induction names as [|name names IH]; intros fs; [reflexivity|].
  rewrite removeEntries_cons.
  destruct (remains home w name fs); cbn [snd failures_logged];
    [|apply IH].
  cbn. apply IH.
Qed.

Lemma removeEntries_quiet names : forall fs,
  existsb is_exec (snd (removeEntries home w names fs)) = false
  /\ existsb is_session (snd (removeEntries home w names fs)) = false.
Proof.
  induction names as [|name names IH]; intros fs; [split; reflexivity|].
  rewrite removeEntries_cons.
  destruct (remains home w name fs);
    cbn [snd existsb is_exec is_session orb]; apply IH.
Qed.

(** The cleanup loop copies nothing. *)
Lemma removeEntries_no_copy names : forall fs,
  copied (snd (removeEntries home w names fs)) = [].
Proof.
  induction names as [|name names IH]; intros fs; [reflexivity|].
  rewrite removeEntries_cons.
  destruct (remains home w name fs); cbn [snd copied]; apply IH.
Qed.

Lemma findEntry_removeEntry_same name fs :
  findEntry name (removeEntry name fs) = None.
Proof.
  destruct fs as [| m l es|]; try reflexivity.
  cbn [removeEntry findEntry].
  induction es as [|e es IH]; [reflexivity|].
  cbn [filter]. destruct (String.eqb (fst e) name) eqn:E; cbn [negb]; [exact IH|].
  cbn [find]. now rewrite E.
Qed.

(** An entry that is not there does not come back by the removal or the
    partial removal of an entry. *)
Lemma findEntry_absent_kept n name c fs :
  findEntry n fs = None ->
  findEntry n (removeEntry name fs) = None
  /\ findEntry n (replaceEntry name c fs) = None.
Proof.
  destruct fs as [| m l es|]; try (split; reflexivity).
  cbn [removeEntry replaceEntry findEntry].
  induction es as [|e es IH]; [split; reflexivity|].
  cbn [find filter map]. destruct (String.eqb (fst e) n) eqn:E; [discriminate|].
  intros H. destruct (IH H) as [IH1 IH2]. split.
  - destruct (String.eqb (fst e) name); cbn [negb]; [exact IH1|].
    cbn [find]. now rewrite E.
  - destruct (String.eqb (fst e) name); cbn [find fst]; now rewrite E.
Qed.

(** An entry whose removal the trace reports as done, or that was not
    there to begin with, is not in the directory that the loop leaves. *)
Lemma removeEntries_gone names : forall fs n,
  In (Join (exportDir home) [n]) (removed (snd (removeEntries home w names fs)))
  \/ findEntry n fs = None ->
  findEntry n (fst (removeEntries home w names fs)) = None.
Proof.
  induction names as [|name names IH]; intros fs n H.
  - destruct H as [[]|H]; exact H.
  - rewrite removeEntries_cons in *.
    destruct (remains home w name fs) as [c'|]; cbn [fst snd removed] in *.
    + apply IH. destruct H as [H|H]; [now left|].
      right. now apply findEntry_absent_kept.
    + apply IH. destruct H as [[H|H]|H].
      * right. unfold exportDir, Join in H. apply app_inv_head in H.
        injection H as ->. apply findEntry_removeEntry_same.
      * now left.
      * right. now apply findEntry_absent_kept.
Qed.

End Cleanup.

Lemma existsb_false_app {A} (f : A -> bool) l1 l2 :
  existsb f l1 = false -> existsb f l2 = false -> existsb f (l1 ++ l2) = false.
Proof. intros H1 H2. now rewrite existsb_app, H1, H2. Qed.

(** [main.go] never runs a command: its loop body has no connectivity
    stage. *)
Lemma iteration_no_exec home w fs :
  existsb is_exec (snd (iteration home w fs)) = false.
Proof.
  unfold iteration.
  destruct (readDir fs) as [[|n names]|]; [reflexivity| |reflexivity].
  pose proof (scpDir_session (before_walk w fs) (remote w) (exportDir home)
                ingestDir remoteUser remotePassword remoteIp) as Hs.
  destruct (scpDir _ _ _ _ _ _ _) as [[err|] t]; cbn [snd] in *.
  - cbn [existsb is_exec orb].
    apply existsb_false_app; [now apply session_no_exec|reflexivity].
  - destruct (readDir (before_cleanup w (before_walk w fs))) as [names2|].
    + pose proof (removeEntries_quiet home w names2
                    (before_cleanup w (before_walk w fs))) as [Hq _].
      destruct (removeEntries home w names2 _) as [fs3 t3]. cbn [snd] in *.
      cbn [existsb is_exec orb].
      apply existsb_false_app; [now apply session_no_exec|].
      apply existsb_false_app; [reflexivity|].
      apply existsb_false_app; [exact Hq|reflexivity].
    + cbn [snd existsb is_exec orb].
      apply existsb_false_app; [now apply session_no_exec|reflexivity].
Qed.

End MainFacts.

(** ** The connectivity manager *)

Module ConnectivityFacts.
Import Trace Connectivity.

Section FindAndConnect.
Variables (nm : Nmcli) (ssid remotePassword : string).

(** As long as no line names both the network and WPA2, the loop
    does nothing. *)
Lemma scanLoop_no_match lines :
  existsb (fun line => Contains line ssid && Contains line "WPA2") lines = false ->
  scanLoop nm ssid remotePassword lines = (false, []).
Proof.
  induction lines as [|line rest IH]; [reflexivity|].
  cbn [existsb scanLoop]. intros H. apply orb_false_iff in H as [H1 H2].
  rewrite H1. now apply IH.
Qed.

(** With such a line, the loop does what [connectTo] does. *)
Lemma scanLoop_match lines :
  existsb (fun line => Contains line ssid && Contains line "WPA2") lines = true ->
  scanLoop nm ssid remotePassword lines = connectTo nm ssid remotePassword.
Proof.
  induction lines as [|line rest IH]; [discriminate|].
  cbn [existsb scanLoop].
  destruct (Contains line ssid && Contains line "WPA2"); [reflexivity|].
  exact IH.
Qed.

Lemma connectTo_no_session :
  existsb is_session (snd (connectTo nm ssid remotePassword)) = false.
Proof.
  unfold connectTo.
  destruct (nm ["con"; "show"; ssid]).
  - destruct (nm ["device"; "wifi"; "connect"; ssid]); reflexivity.
  - destruct (nm _); reflexivity.
Qed.

Lemma scanLoop_no_session lines :
  existsb is_session (snd (scanLoop nm ssid remotePassword lines)) = false.
Proof.
  induction lines as [|line rest IH]; [reflexivity|].
  cbn [scanLoop].
  destruct (Contains line ssid && Contains line "WPA2");
    [apply connectTo_no_session|exact IH].
Qed.

(** [findAndConnect] starts with the rescan and never touches the
    session. *)
Lemma findAndConnect_trace :
  (exists t, snd (findAndConnect nm ssid remotePassword)
             = Exec "nmcli" rescanArgs :: t)
  /\ existsb is_session (snd (findAndConnect nm ssid remotePassword)) = false.
Proof.
  unfold findAndConnect.
  destruct (nm scanArgs) as [out|]; [|split; [eexists|]; reflexivity].
  pose proof (scanLoop_no_session (scanLines out)) as H.
  destruct (scanLoop nm ssid remotePassword (scanLines out)) as [res t].
  split; [eexists; reflexivity|exact H].
Qed.

End FindAndConnect.

End ConnectivityFacts.

Module ConnectivityClaims.
Import Trace Connectivity ConnectivityFacts.

(** C5.  When no line of the scan contains the network name together
    with WPA2 (in particular when the lines that contain the name do not
    contain WPA2), [findAndConnect] returns false and the only commands it
    has run are the rescan and the scan: no connect command. *)
Theorem name_alone_is_rejected (nm : Nmcli) (ssid remotePassword : string) :
  (forall out line,
      nm scanArgs = Some out -> In line (scanLines out) ->
      Contains line ssid = true -> Contains line "WPA2" = false) ->
  fst (findAndConnect nm ssid remotePassword) = false
  /\ filter is_exec (snd (findAndConnect nm ssid remotePassword))
     = [Exec "nmcli" rescanArgs; Exec "nmcli" scanArgs]
  /\ existsb is_connect_cmd (snd (findAndConnect nm ssid remotePassword)) = false.
Proof.
  intros H. unfold findAndConnect.
  destruct (nm scanArgs) as [out|] eqn:E; [|repeat split].
  rewrite scanLoop_no_match; [repeat split|].
  destruct (existsb _ (scanLines out)) eqn:Ex; [|reflexivity].
  apply existsb_exists in Ex as (line & Hin & Hm).
  apply andb_prop in Hm as [Hs Hw].
  rewrite (H out line eq_refl Hin Hs) in Hw. discriminate.
Qed.

(** The scan shows the network pi4 without security next to a
    neighbour's WPA2 network. *)
Lemma name_alone_is_rejected_witness :
  let out := ("SSID  SIGNAL  SECURITY" ++ String LF ""
              ++ "pi4  82  --" ++ String LF ""
              ++ "office  60  WPA2" ++ String LF "")%string in
  let nm : Nmcli := fun args =>
    if list_eq_dec string_dec args scanArgs then Some out else Some ""%string in
  fst (findAndConnect nm "pi4" "passyword") = false
  /\ filter is_exec (snd (findAndConnect nm "pi4" "passyword"))
     = [Exec "nmcli" rescanArgs; Exec "nmcli" scanArgs]
  /\ existsb is_connect_cmd (snd (findAndConnect nm "pi4" "passyword")) = false.
Proof.
  intros out nm.
  apply (name_alone_is_rejected nm "pi4" "passyword").
  intros out' line Hout Hin Hs.
  assert (out' = out) as -> by (vm_compute in Hout; now injection Hout as <-).
  vm_compute in Hin.
  destruct Hin as [<-|[<-|[<-|[]]]]; try reflexivity; vm_compute in Hs; discriminate.
Defined.

(** C8.  When a line of the scan names the network and WPA2 and
    [nmcli con show] fails (no profile), the one connect command that
    [findAndConnect] runs is [device wifi connect <ssid>] followed by the
    credential arguments, which are present, and then carry the
    password, exactly when the password is not empty. *)
Theorem password_only_if_nonempty (nm : Nmcli) (ssid remotePassword out : string) :
  nm scanArgs = Some out ->
  existsb (fun line => Contains line ssid && Contains line "WPA2")
          (scanLines out) = true ->
  nm ["con"; "show"; ssid] = None ->
  exists cred,
    filter is_connect_cmd (snd (findAndConnect nm ssid remotePassword))
    = [Exec "nmcli" (["device"; "wifi"; "connect"; ssid] ++ cred)]
    /\ (remotePassword = ""%string -> cred = [])
    /\ (remotePassword <> ""%string -> cred = ["remotePassword"; remotePassword])
    /\ (In remotePassword cred <-> remotePassword <> ""%string).
Proof.
  intros Hscan Hm Hshow.
  unfold findAndConnect. rewrite Hscan, (scanLoop_match _ _ _ _ Hm).
  unfold connectTo. rewrite Hshow.
  destruct (String.eqb remotePassword "") eqn:Ep.
  - apply String.eqb_eq in Ep. exists [].
    rewrite app_nil_r.
    split; [destruct (nm ["device"; "wifi"; "connect"; ssid]); reflexivity|].
    repeat split; try tauto; try contradiction; intros []; congruence.
  - apply String.eqb_neq in Ep. exists ["remotePassword"; remotePassword].
    split;
      [destruct (nm (["device"; "wifi"; "connect"; ssid]
                       ++ ["remotePassword"; remotePassword])); reflexivity|].
    repeat split; try tauto; try congruence.
    intros _. right. now left.
Qed.

(** The access point is in range, no profile exists yet and a password
    is given. *)
Lemma password_only_if_nonempty_witness :
  let out := ("SSID  SIGNAL  SECURITY" ++ String LF ""
              ++ "pi4  82  WPA2" ++ String LF "")%string in
  let nm : Nmcli := fun args =>
    if list_eq_dec string_dec args scanArgs then Some out
    else if list_eq_dec string_dec args ["con"; "show"; "pi4"] then None
    else Some ""%string in
  exists cred,
    filter is_connect_cmd (snd (findAndConnect nm "pi4" "passyword"))
    = [Exec "nmcli" (["device"; "wifi"; "connect"; "pi4"] ++ cred)]
    /\ ("passyword" = ""%string -> cred = [])
    /\ ("passyword" <> ""%string -> cred = ["remotePassword"; "passyword"])
    /\ (In "passyword" cred <-> "passyword" <> ""%string).
Proof.
  intros out nm.
  apply (password_only_if_nonempty nm "pi4" "passyword" out); reflexivity.
Defined.

End ConnectivityClaims.

Module MainClaims.
Import Time Fs ScpDir ScpDirFacts Trace Main MainFacts.

(** C6.  When the export directory cannot be listed or is empty, the
    iteration lists it, logs, sleeps five seconds and does nothing else:
    no command, no session, the directory as it was; and the loop goes on
    with the next listing. *)
Theorem idle_iteration home w fs :
  readDir fs = None \/ readDir fs = Some [] ->
  iteration home w fs
  = (fs, [ReadDir (exportDir home) (readDir fs);
          Log "Nothing to do; sleeping";
          Sleep (5 * Second)])
  /\ existsb is_session (snd (iteration home w fs)) = false
  /\ existsb is_exec (snd (iteration home w fs)) = false
  /\ forall w' ws, exists rest,
       snd (loop home (w :: w' :: ws) fs)
       = [ReadDir (exportDir home) (readDir fs);
          Log "Nothing to do; sleeping";
          Sleep (5 * Second)]
           ++ ReadDir (exportDir home) (readDir fs) :: rest.
Proof.
  intros H.
  assert (Hi : iteration home w fs
               = (fs, [ReadDir (exportDir home) (readDir fs);
                       Log "Nothing to do; sleeping"; Sleep (5 * Second)])).
  { unfold iteration. destruct H as [-> | ->]; reflexivity. }
  rewrite Hi. repeat split.
  intros w' ws. cbn [loop]. rewrite Hi.
  assert (Hi' : iteration home w' fs
                = (fs, [ReadDir (exportDir home) (readDir fs);
                        Log "Nothing to do; sleeping"; Sleep (5 * Second)])).
  { unfold iteration. destruct H as [-> | ->]; reflexivity. }
  rewrite Hi'. destruct (loop home ws fs) as [fs' t'].
  eexists. cbn [snd app]. reflexivity.
Qed.

Lemma idle_iteration_witness :
  let fs := Dir 16877 true [] in
  let w := quiet (mkRemote true (fun _ => true)) (fun _ => true) in
  let home := ["home"; "pi"] in
  iteration home w fs
  = (fs, [ReadDir (exportDir home) (readDir fs);
          Log "Nothing to do; sleeping";
          Sleep (5 * Second)])
  /\ existsb is_session (snd (iteration home w fs)) = false
  /\ existsb is_exec (snd (iteration home w fs)) = false
  /\ forall w' ws, exists rest,
       snd (loop home (w :: w' :: ws) fs)
       = [ReadDir (exportDir home) (readDir fs);
          Log "Nothing to do; sleeping";
          Sleep (5 * Second)]
           ++ ReadDir (exportDir home) (readDir fs) :: rest.
Proof.
  intros fs w home.
  apply (idle_iteration home w fs). right. reflexivity.
Defined.

(** C9.  After a pass of [scpDir] without error, the cleanup attempts the
    removal of every listed entry in order, whether or not earlier
    removals failed; each failure is logged; an entry whose removal
    succeeded is not in the directory that the iteration leaves; and the
    iteration ends with the sleep of five minutes. *)
Theorem cleanup_failure_tolerated home w fs name names t names2 :
  readDir fs = Some (name :: names) ->
  scpDir (before_walk w fs) (remote w) (exportDir home) ingestDir
         remoteUser remotePassword remoteIp = (None, t) ->
  readDir (before_cleanup w (before_walk w fs)) = Some names2 ->
  exists t3,
    snd (iteration home w fs)
    = ReadDir (exportDir home) (Some (name :: names)) :: t
        ++ [Log "Deleteing local files";
            ReadDir (exportDir home) (Some names2)]
        ++ t3
        ++ [Log "Sleeping for a bit"; Sleep (5 * Minute)]
    /\ removals t3 = map (fun n => Join (exportDir home) [n]) names2
    /\ failures_logged t3 = true
    /\ (forall n, In (Join (exportDir home) [n]) (removed t3) ->
                  findEntry n (fst (iteration home w fs)) = None).
Proof.
  intros Hdir Hscp Hdir2.
  exists (snd (removeEntries home w names2 (before_cleanup w (before_walk w fs)))).
  assert (Hi : iteration home w fs
     = (fst (removeEntries home w names2 (before_cleanup w (before_walk w fs))),
        ReadDir (exportDir home) (Some (name :: names)) :: t
          ++ [Log "Deleteing local files";
              ReadDir (exportDir home) (Some names2)]
          ++ snd (removeEntries home w names2 (before_cleanup w (before_walk w fs)))
          ++ [Log "Sleeping for a bit"; Sleep (5 * Minute)])).
  { unfold iteration. rewrite Hdir, Hscp, Hdir2.
    now destruct (removeEntries home w names2 _). }
  rewrite Hi. cbn [fst snd].
  split; [reflexivity|].
  split; [apply removeEntries_removals|].
  split; [apply removeEntries_logged|].
  intros n Hn. apply removeEntries_gone. now left.
Qed.

(** Three pictures are sent; the removal of the third one fails. *)
Lemma cleanup_failure_tolerated_witness :
  let home := ["home"; "pi"] in
  let fs := Dir 16877 true
                [("1.jpg", File 33188 "one" true);
                 ("2.jpg", File 33188 "two" true);
                 ("3.jpg", File 33188 "three" true)] in
  let w := quiet (mkRemote true (fun _ => true))
                 (fun q => if list_eq_dec string_dec q
                                   ["home"; "pi"; "export"; "3.jpg"]
                           then false else true) in
  let t := snd (scpDir fs (remote w) (exportDir home) ingestDir
                       remoteUser remotePassword remoteIp) in
  let names2 := ["1.jpg"; "2.jpg"; "3.jpg"] in
  exists t3,
    snd (iteration home w fs)
    = ReadDir (exportDir home) (Some ["1.jpg"; "2.jpg"; "3.jpg"]) :: t
        ++ [Log "Deleteing local files";
            ReadDir (exportDir home) (Some names2)]
        ++ t3
        ++ [Log "Sleeping for a bit"; Sleep (5 * Minute)]
    /\ removals t3 = map (fun n => Join (exportDir home) [n]) names2
    /\ failures_logged t3 = true
    /\ (forall n, In (Join (exportDir home) [n]) (removed t3) ->
                  findEntry n (fst (iteration home w fs)) = None).
Proof.
  intros home fs w t names2.
  apply (cleanup_failure_tolerated home w fs "1.jpg" ["2.jpg"; "3.jpg"] t names2);
    reflexivity.
Defined.

(** The guard in front of the cleanup: an iteration attempts a removal
    only if its pass of [scpDir] returned no error. *)
Lemma removal_only_after_nil home w fs :
  removals (snd (iteration home w fs)) <> [] ->
  fst (scpDir (before_walk w fs) (remote w) (exportDir home) ingestDir
              remoteUser remotePassword remoteIp) = None.
Proof.
  unfold iteration.
  destruct (readDir fs) as [[|n names]|]; [intros H; now elim H| |intros H; now elim H].
  pose proof (scpDir_session (before_walk w fs) (remote w) (exportDir home)
                ingestDir remoteUser remotePassword remoteIp) as Hs.
  destruct (scpDir _ _ _ _ _ _ _) as [[err|] t]; [|reflexivity].
  cbn [snd removals] in *. rewrite removals_app, (session_no_removals _ Hs).
  intros H; now elim H.
Qed.

(** C1.  The export directory holds [a.jpg]; the pass sends it; the
    capture service writes [b.jpg] after the walk and before the cleanup
    lists the directory.  The iteration removes both: [b.jpg] is gone
    and was never opened or copied. *)
Theorem late_file_removed_without_transfer :
  let home := ["home"; "pi"] in
  let fs := Dir 16877 true [("a.jpg", File 33188 "AAAA" true)] in
  let w := mkWorld (fun fs => fs)
                   (addEntry "b.jpg" (File 33188 "BBBB" true))
                   (mkRemote true (fun _ => true))
                   (fun _ => true) in
  let r := iteration home w fs in
  fst (scpDir (before_walk w fs) (remote w) (exportDir home) ingestDir
              remoteUser remotePassword remoteIp) = None
  /\ opened (snd r) = [["home"; "pi"; "export"; "a.jpg"]]
  /\ map src_of (copied (snd r)) = [["home"; "pi"; "export"; "a.jpg"]]
  /\ removed (snd r) = [["home"; "pi"; "export"; "a.jpg"];
                        ["home"; "pi"; "export"; "b.jpg"]]
  /\ findEntry "b.jpg" (before_cleanup w (before_walk w fs))
     = Some (File 33188 "BBBB" true)
  /\ fst r = Dir 16877 true [].
Proof.
  vm_compute. repeat split.
Qed.

(** C2.  On [main.go], with a picture in the export directory, the
    iteration opens the session and sends the picture without having run
    any command of the connectivity manager: the stage that the loops of
    the other two watchers run first is not run here. *)
Lemma main_transfers_without_connectivity :
  let home := ["home"; "pi"] in
  let fs := Dir 16877 true [("a.jpg", File 33188 "AAAA" true)] in
  let w := quiet (mkRemote true (fun _ => true)) (fun _ => true) in
  readDir fs = Some ["a.jpg"]
  /\ connectivity_first (snd (iteration home w fs)) = false
  /\ existsb is_exec (snd (iteration home w fs)) = false
  /\ map src_of (copied (snd (iteration home w fs)))
     = [["home"; "pi"; "export"; "a.jpg"]].
Proof.
  vm_compute. repeat split.
Qed.

End MainClaims.

Module MainWithConnectivityClaims.
Import Time Fs ScpDir Trace Connectivity ConnectivityFacts MainFacts.
Import MainWithConnectivity.

(** X23.  In the watcher loop that has the connectivity stage, every
    iteration runs [findAndConnect] first; its result is logged; if it
    is false the iteration only sleeps five seconds, and the transfer
    runs only when it is true, after the commands of [findAndConnect].
    The loop of [file_transfer_watcher/main.go] has no such stage: none of
    its iterations runs a command. *)
Theorem connectivity_stage_guards_transfer home nm rem fs :
  connectedIteration home nm rem fs
  = snd (findAndConnect nm ssid "passyword")
      ++ [Log ("Found network: "
                 ++ boolText (fst (findAndConnect nm ssid "passyword")))%string]
      ++ (if fst (findAndConnect nm ssid "passyword")
          then transfer home rem fs
          else [Sleep (5 * Second)])
  /\ existsb is_session (snd (findAndConnect nm ssid "passyword")) = false
  /\ connectivity_first (connectedIteration home nm rem fs) = true
  /\ (forall home' w fs',
         existsb is_exec (snd (Main.iteration home' w fs')) = false).
Proof.
  pose proof (findAndConnect_trace nm ssid "passyword") as [[t Ht] Hns].
  assert (Hi : connectedIteration home nm rem fs
    = snd (findAndConnect nm ssid "passyword")
      ++ [Log ("Found network: "
                 ++ boolText (fst (findAndConnect nm ssid "passyword")))%string]
      ++ (if fst (findAndConnect nm ssid "passyword")
          then transfer home rem fs
          else [Sleep (5 * Second)])).
  { unfold connectedIteration. cbn [checkIfConnected negb].
    destruct (findAndConnect nm ssid "passyword") as [[|] t1]; cbn [fst snd negb].
    - now rewrite <- app_assoc.
    - now rewrite <- app_assoc. }
  split; [exact Hi|]. split; [exact Hns|]. split.
  - rewrite Hi, Ht. reflexivity.
  - intros home' w fs'. apply iteration_no_exec.
Qed.

End MainWithConnectivityClaims.

(** * Further properties *)

(** ** The progress reporter: counting, newline, liveness *)

Module SpeedReaderMore.
Import Time SpeedReader SpeedReaderFacts SpeedReaderRun.

#[local] Arguments Sub : simpl never.
#[local] Arguments wrap64 : simpl never.

Lemma wrap64_range z : - 2 ^ 63 <= wrap64 z < 2 ^ 63.
Proof.
  unfold wrap64. pose proof (Z.mod_pos_bound (z + 2 ^ 63) (2 ^ 64)). lia.
Qed.

Lemma wrap64_id z : - 2 ^ 63 <= z < 2 ^ 63 -> wrap64 z = z.
Proof.
  intros H. unfold wrap64. rewrite Z.mod_small; lia.
Qed.

Lemma wrap64_add a b : wrap64 (wrap64 a + b) = wrap64 (a + b).
Proof.
  unfold wrap64.
  replace ((a + 2 ^ 63) mod 2 ^ 64 - 2 ^ 63 + b + 2 ^ 63)
    with ((a + 2 ^ 63) mod 2 ^ 64 + b) by lia.
  rewrite Zplus_mod_idemp_l. f_equal. f_equal. lia.
Qed.

Lemma Read_counter s now n err :
  counter (fst (Read s now n err)) = wrap64 (counter s + n).
Proof.
  unfold Read; cbn [minDelta lastPrint start file counter].
  destruct (minDelta s <=? Sub (Mono now) (lastPrint s)); reflexivity.
Qed.

Lemma Read_file s now n err : file (fst (Read s now n err)) = file s.
Proof.
  unfold Read; cbn [minDelta lastPrint start file counter].
  destruct (minDelta s <=? Sub (Mono now) (lastPrint s)); reflexivity.
Qed.

Lemma after_counter cs : forall s,
  - 2 ^ 63 <= counter s < 2 ^ 63 ->
  counter (after s cs) = wrap64 (counter s + total cs).
Proof.
  induction cs as [|c cs IH]; intros s Hs.
  - cbn [after total]. rewrite Z.add_0_r. symmetry. now apply wrap64_id.
  - cbn [after total]. rewrite IH, Read_counter, !wrap64_add.
    + f_equal. lia.
    + rewrite Read_counter. apply wrap64_range.
Qed.

Lemma reads_app cs1 : forall s cs2,
  reads s (cs1 ++ cs2) = reads s cs1 ++ reads (after s cs1) cs2.
Proof.
  induction cs1 as [|c cs1 IH]; intros s cs2; [reflexivity|].
  rewrite <- app_comm_cons, !reads_cons, IH. reflexivity.
Qed.

Lemma reads_length cs : forall s, List.length (reads s cs) = List.length cs.
Proof.
  induction cs as [|c cs IH]; intros s; [reflexivity|].
  rewrite reads_cons. cbn [List.length]. now rewrite IH.
Qed.

(** X1.  The byte counter (an int64) after any sequence of calls is the
    int64 sum of what it held and what the wrapped reader returned; as
    long as that sum stays in the int64 range it is the exact number of
    bytes. *)
Theorem counter_accumulates (s : speedReader) (cs : list call) :
  - 2 ^ 63 <= counter s < 2 ^ 63 ->
  counter (after s cs) = wrap64 (counter s + total cs)
  /\ (- 2 ^ 63 <= counter s + total cs < 2 ^ 63 ->
      counter (after s cs) = counter s + total cs).
Proof.
  intros Hc. split; [now apply after_counter|].
  intros Hsum. rewrite after_counter by exact Hc. now apply wrap64_id.
Qed.

(** Three reads on a reader made by [passThru]. *)
Lemma counter_accumulates_witness :
  let s := passThru "img.jpg" 0 in
  let cs := [mkCall 0 4096 None; mkCall (150 * Millisecond) 4096 None;
             mkCall (160 * Millisecond) 100 (Some EOF)] in
  counter (after s cs) = wrap64 (counter s + total cs)
  /\ (- 2 ^ 63 <= counter s + total cs < 2 ^ 63 ->
      counter (after s cs) = counter s + total cs).
Proof.
  intros s cs. apply (counter_accumulates s cs).
  cbn [s passThru counter]. lia.
Defined.

(** X2.  The progress line of a call reports the bytes counted up to and
    including that call, under the name of the wrapped file. *)
Theorem progress_reports_cumulative (s : speedReader) (cs : list call)
        (i : nat) (t : Z) (out : list Output) (f : string) (b : Z) (e : Duration) :
  nth_error (reads s cs) i = Some (t, out) ->
  In (Progress f b e) out ->
  b = wrap64 (counter s + total (firstn (S i) cs))
  /\ f = file s.
Proof.
  revert s i. induction cs as [|c cs IH]; intros s i Hn Hin.
  - destruct i; discriminate.
  - rewrite reads_cons in Hn. destruct i as [|i].
    + cbn [nth_error] in Hn. injection Hn as <- <-.
      cbn [firstn total]. rewrite Z.add_0_r.
      unfold Read in Hin; cbn [minDelta lastPrint start file counter] in Hin.
      destruct (minDelta s <=? Sub (Mono (c_now c)) (lastPrint s));
        [destruct (0 <? Sub (Mono (c_now c)) (start s))|];
        destruct (c_err c) as [[|]|]; cbn [snd app] in Hin;
        repeat (destruct Hin as [Hin|Hin]; [try discriminate Hin|]);
        try contradiction;
        injection Hin as <- <- <-; split; reflexivity.
    + cbn [nth_error] in Hn. specialize (IH _ _ Hn Hin).
      rewrite Read_counter, Read_file in IH. destruct IH as [-> ->].
      split; [|reflexivity].
      change (firstn (S (S i)) (c :: cs)) with (c :: firstn (S i) cs).
      cbn [total]. rewrite wrap64_add. f_equal. lia.
Qed.

(** Two reads of 4096 bytes, the second one late enough to print. *)
Lemma progress_reports_cumulative_witness :
  let s := passThru "img.jpg" 0 in
  let cs := [mkCall 0 4096 None; mkCall (150 * Millisecond) 4096 None] in
  8192 = wrap64 (counter s + total (firstn 2 cs))
  /\ "img.jpg"%string = file s.
Proof.
  intros s cs.
  apply (progress_reports_cumulative s cs 1 (150 * Millisecond)
           [Progress "img.jpg" 8192 (150 * Millisecond)]
           "img.jpg" 8192 (150 * Millisecond)).
  - reflexivity.
  - left. reflexivity.
Defined.

(** X3.  A call writes the final newline exactly when the wrapped reader
    returned [io.EOF], and then as the last thing it writes. *)
Theorem newline_exactly_on_eof (s : speedReader) (cs : list call) :
  map (fun e => filter is_newline (snd e)) (reads s cs)
  = map (fun c => if is_eof (c_err c) then [Newline] else []) cs
  /\ Forall (fun e => forall o, In o (snd e) -> is_newline o = true ->
                      List.last (snd e) o = Newline) (reads s cs).
Proof.
  revert s. induction cs as [|c cs IH]; intros s; [split; constructor|].
  rewrite reads_cons. destruct (IH (fst (Read s (c_now c) (c_n c) (c_err c)))) as [IH1 IH2].
  split.
  - cbn [map snd]. rewrite IH1. f_equal.
    unfold Read; cbn [minDelta lastPrint start file counter].
    destruct (minDelta s <=? Sub (Mono (c_now c)) (lastPrint s));
      [destruct (0 <? Sub (Mono (c_now c)) (start s))|];
      destruct (c_err c) as [[|]|]; reflexivity.
  - constructor; [|exact IH2]. cbn [snd].
    unfold Read; cbn [minDelta lastPrint start file counter].
    destruct (minDelta s <=? Sub (Mono (c_now c)) (lastPrint s));
      [destruct (0 <? Sub (Mono (c_now c)) (start s))|];
      destruct (c_err c) as [[|]|]; cbn [snd app];
      intros o Hin Ho;
      repeat (destruct Hin as [<-|Hin]; [try discriminate Ho; try reflexivity|]);
      try contradiction.
Qed.

(** X4.  Liveness of the reporter: a reader whose [lastPrint] was never
    set and that is read after its start, at calls at least [minDelta]
    apart, prints a progress line at every call. *)
Theorem steady_reads_all_print (s : speedReader) (st : Z) (cs : list call) :
  start s = Mono st ->
  lastPrint s = Zero ->
  minDelta s <= maxDuration ->
  Forall (fun t => st < t) (map c_now cs) ->
  separated (minDelta s) (map c_now cs) ->
  print_times (reads s cs) = map c_now cs.
Proof.
  intros Hst Hl Hd Hafter Hsep.
  assert (G : forall cs (s : speedReader),
             start s = Mono st ->
             minDelta s <= maxDuration ->
             Forall (fun t => st < t) (map c_now cs) ->
             separated (minDelta s) (map c_now cs) ->
             match cs with
             | [] => True
             | c :: _ => minDelta s <= Sub (Mono (c_now c)) (lastPrint s)
             end ->
             print_times (reads s cs) = map c_now cs).
  { clear. induction cs as [|c cs IH]; intros s Hst Hd Hafter Hsep Hfirst;
      [reflexivity|].
    rewrite reads_cons. unfold print_times. cbn [filter snd map].
    cbn [map] in Hafter, Hsep.
    pose proof (Forall_inv Hafter) as Hc. cbn beta in Hc.
    apply Forall_inv_tail in Hafter. destruct Hsep as [Hgap Hsep].
    assert (Hr : Read s (c_now c) (c_n c) (c_err c)
                 = (mkSpeedReader (file s) (start s) (wrap64 (counter s + c_n c))
                                  (Mono (c_now c)) (minDelta s),
                    [Progress (file s) (wrap64 (counter s + c_n c))
                              (Sub (Mono (c_now c)) (start s))]
                      ++ match c_err c with Some EOF => [Newline] | _ => [] end)).
    { unfold Read; cbn [minDelta lastPrint start file counter].
      apply Z.leb_le in Hfirst. rewrite Hfirst.
      assert (Hpos : (0 <? Sub (Mono (c_now c)) (start s)) = true).
      { apply Z.ltb_lt. rewrite Hst. unfold Sub, minDuration, maxDuration. lia. }
      now rewrite Hpos. }
    rewrite Hr. cbn [fst snd app existsb is_progress orb map].
    f_equal. apply (IH (mkSpeedReader _ _ _ _ _)); cbn [start minDelta lastPrint];
      try assumption.
    destruct cs as [|c' cs]; [exact I|]. cbn [map] in Hgap.
    unfold Sub, minDuration, maxDuration in *. lia. }
  apply G; try assumption.
  destruct cs as [|c cs]; [exact I|]. rewrite Hl. exact Hd.
Qed.

(** Reads every 100 ms after the start at 0. *)
Lemma steady_reads_all_print_witness :
  let s := passThru "img.jpg" 0 in
  let cs := [mkCall (100 * Millisecond) 512 None;
             mkCall (200 * Millisecond) 512 None;
             mkCall (350 * Millisecond) 512 (Some EOF)] in
  print_times (reads s cs) = map c_now cs.
Proof.
  intros s cs.
  apply (steady_reads_all_print s 0 cs).
  - reflexivity.
  - reflexivity.
  - vm_compute. discriminate.
  - repeat constructor.
  - vm_compute. repeat split; discriminate.
Defined.

End SpeedReaderMore.

(** ** The sync engine: release, success, distinct destinations *)

Module ScpDirMore.
Import Fs Fmt ScpDir ScpDirFacts Trace Observe Health.

Section Walk.
Variables (exportDir ingestDir : path) (rem : Remote).

Lemma walkEntries_events (P : Event -> Prop) visit es :
  Forall (fun e => Forall P (snd (visit (fst e) (snd e)))) es ->
  Forall P (snd (walkEntries visit es)).
Proof.
  induction 1 as [|[name c] es Hc _ IH]; [constructor|].
  cbn [walkEntries fst snd] in *.
  destruct (visit name c) as [[err|] t1]; [exact Hc|].
  destruct (walkEntries visit es) as [e' t']. cbn [snd] in *.
  apply Forall_app. now split.
Qed.

(** What holds of every event of the callback holds of every event of a
    walk. *)
Lemma walk_events (P : Event -> Prop) :
  (forall p n err, Forall P (snd (walkFn exportDir ingestDir rem p n err))) ->
  forall n p, Forall P (snd (walk exportDir ingestDir rem p n)).
Proof.
  intros HP.
  induction n as [m d o|m l es IH|] using node_nested_ind; intros p.
  - apply HP.
  - destruct l; cbn [walk walkFn negb snd]; [|constructor].
    pose proof (walkEntries_events P
                  (fun name c => walk exportDir ingestDir rem (Join p [name]) c) es)
      as H.
    destruct (walkEntries _ es) as [e t]. cbn [snd app] in *.
    apply H. eapply Forall_impl; [|exact IH]. intros [name c] Hc. apply Hc.
  - apply HP.
Qed.

Lemma walk_no_client n p :
  filter is_client (snd (walk exportDir ingestDir rem p n)) = [].
Proof.
  assert (H : Forall (fun e => is_client e = false)
                (snd (walk exportDir ingestDir rem p n))).
  { apply walk_events. intros q m err. unfold walkFn.
    destruct err; [constructor|].
    destruct m as [? ? [|]| |]; cbn [snd]; repeat constructor. }
  induction H as [|e t He _ IH]; [reflexivity|].
  cbn [filter]. now rewrite He.
Qed.

Lemma walkEntries_closes visit es :
  Forall (fun e => closed_files (snd (visit (fst e) (snd e)))
                   = opened_ok (snd (visit (fst e) (snd e)))) es ->
  closed_files (snd (walkEntries visit es))
  = opened_ok (snd (walkEntries visit es)).
Proof.
  induction 1 as [|[name c] es Hc _ IH]; [reflexivity|].
  cbn [walkEntries fst snd] in *.
  destruct (visit name c) as [[err|] t1]; [exact Hc|].
  destruct (walkEntries visit es) as [e' t']. cbn [snd] in *.
  unfold closed_files, opened_ok in *. now rewrite !flat_map_app, Hc, IH.
Qed.

(** Every file the walk opened it also closed, in the same order. *)
Lemma walk_closes n : forall p,
  closed_files (snd (walk exportDir ingestDir rem p n))
  = opened_ok (snd (walk exportDir ingestDir rem p n)).
Proof.
  induction n as [m d o|m l es IH|] using node_nested_ind; intros p.
  - cbn [walk walkFn]. destruct o; reflexivity.
  - destruct l; cbn [walk walkFn negb snd]; [|reflexivity].
    pose proof (walkEntries_closes
                  (fun name c => walk exportDir ingestDir rem (Join p [name]) c) es)
      as H.
    destruct (walkEntries _ es) as [e t]. cbn [snd app] in *.
    apply H. eapply Forall_impl; [|exact IH]. intros [name c] Hc. apply Hc.
  - reflexivity.
Qed.

Lemma walkEntries_healthy visit (h : string * node -> bool) es :
  Forall (fun e => succeeded (visit (fst e) (snd e)) = h e) es ->
  succeeded (walkEntries visit es) = forallb h es.
Proof.
  induction 1 as [|[name c] es Hc _ IH]; [reflexivity|].
  cbn [walkEntries forallb fst snd] in *. rewrite <- Hc, <- IH.
  destruct (visit name c) as [[err|] t1]; [reflexivity|].
  now destruct (walkEntries visit es) as [[err|] t'].
Qed.

(** A walk ends without error exactly on a healthy tree. *)
Lemma walk_healthy n : forall p,
  succeeded (walk exportDir ingestDir rem p n) = healthy rem p n.
Proof.
  induction n as [m d o|m l es IH|] using node_nested_ind; intros p.
  - cbn [walk walkFn healthy]. unfold succeeded.
    destruct o; [destruct (copy_ok rem p)|]; reflexivity.
  - destruct l; cbn [walk walkFn healthy negb andb]; [|reflexivity].
    pose proof (walkEntries_healthy
                  (fun name c => walk exportDir ingestDir rem (Join p [name]) c)
                  (fun e => healthy rem (Join p [fst e]) (snd e)) es) as H.
    destruct (walkEntries _ es) as [e t].
    change (succeeded (e, [] ++ t)) with (succeeded (e, t)).
    apply H. eapply Forall_impl; [|exact IH]. intros [name c] Hc. apply Hc.
  - reflexivity.
Qed.

End Walk.

(** X5.  The client is released on every way out of [scpDir]: the trace
    starts with the one [Connect]; when that succeeded the trace ends
    with the one [Close], whatever happened in between, and when it failed
    nothing else is done; every file that was opened is closed. *)
Theorem session_released fs rem exportDir ingestDir user pw ip :
  let t := snd (scpDir fs rem exportDir ingestDir user pw ip) in
  hd_error t = Some (Connect (ip ++ ":22") user pw (connect_ok rem))
  /\ filter is_client t
     = (if connect_ok rem
        then [Connect (ip ++ ":22") user pw true; Close]
        else [Connect (ip ++ ":22") user pw false])
  /\ List.last t Close
     = (if connect_ok rem then Close else Connect (ip ++ ":22") user pw false)
  /\ closed_files t = opened_ok t.
Proof.
  unfold scpDir. destruct (connect_ok rem); [|repeat split].
  pose proof (walk_no_client exportDir ingestDir rem fs exportDir) as Hc.
  pose proof (walk_closes exportDir ingestDir rem fs exportDir) as Hf.
  destruct (walk exportDir ingestDir rem exportDir fs) as [e t].
  cbn [snd] in *. cbv zeta. repeat split.
  - cbn [filter is_client]. now rewrite filter_app, Hc.
  - change (Connect (ip ++ ":22") user pw true :: t ++ [Close])
      with ((Connect (ip ++ ":22") user pw true :: t) ++ [Close]).
    apply last_last.
  - unfold closed_files, opened_ok in *. cbn [flat_map app].
    rewrite !flat_map_app, Hf. reflexivity.
Qed.

Lemma scpDir_healthy fs rem exportDir ingestDir user pw ip :
  succeeded (scpDir fs rem exportDir ingestDir user pw ip)
  = connect_ok rem && healthy rem exportDir fs.
Proof.
  unfold scpDir. destruct (connect_ok rem); [|reflexivity].
  pose proof (walk_healthy exportDir ingestDir rem fs exportDir) as H.
  destruct (walk exportDir ingestDir rem exportDir fs) as [e t].
  exact H.
Qed.

(** X6.  [scpDir] returns nil exactly when the connection succeeds and
    nothing in the tree stops the walk: every directory can be listed,
    [Lstat] works on every name, every file can be opened and its copy
    is accepted. *)
Theorem scpDir_succeeds_iff_healthy fs rem exportDir ingestDir user pw ip :
  succeeded (scpDir fs rem exportDir ingestDir user pw ip)
  = connect_ok rem && healthy rem exportDir fs.
Proof.
  unfold scpDir. destruct (connect_ok rem); [|reflexivity].
  pose proof (walk_healthy exportDir ingestDir rem fs exportDir) as H.
  destruct (walk exportDir ingestDir rem exportDir fs) as [e t].
  exact H.
Qed.

Lemma distinct_NoDup names : distinct names = true -> NoDup names.
Proof.
  induction names as [|x names IH]; [constructor|].
  cbn [distinct]. intros H. apply andb_prop in H as [Hx Hd].
  constructor; [|now apply IH].
  intros Hin. apply negb_true_iff in Hx.
  assert (existsb (String.eqb x) names = true); [|congruence].
  apply existsb_exists. exists x. split; [exact Hin|apply String.eqb_refl].
Qed.

(** In a tree without repeated names no two files have the same
    relative path. *)
Lemma files_under_NoDup (n : node) :
  wellNamed n = true -> NoDup (map (fun f => fst (fst f)) (files_under n)).
Proof.
  induction n as [m d o|m l es IH|] using node_nested_ind; intros Hw.
  - repeat constructor. intros [].
  - cbn [wellNamed] in Hw. apply andb_prop in Hw as [Hd Hall].
    apply distinct_NoDup in Hd. cbn [files_under].
    induction IH as [|[name c] es Hc _ IHes]; [constructor|].
    cbn [forallb map fst snd flat_map] in *.
    apply andb_prop in Hall as [Hwc Hall].
    rewrite map_app. apply NoDup_app.
    + rewrite map_map. specialize (Hc Hwc).
      rewrite (map_ext _ (fun f => name :: fst (fst f))) by reflexivity.
      rewrite <- (map_map (fun f : path * N * string => fst (fst f)) (cons name)).
      apply NoDup_map_NoDup_ForallPairs; [|exact Hc].
      intros a b _ _ Hab. now injection Hab.
    + apply IHes; [now inversion Hd|exact Hall].
    + intros r Hr1 Hr2.
      apply in_map_iff in Hr1 as (f1 & <- & Hf1).
      apply in_map_iff in Hf1 as (f1' & <- & _). cbn [shift fst snd app] in Hr2.
      apply in_map_iff in Hr2 as (f2 & Heq & Hf2).
      apply in_flat_map in Hf2 as ([name2 c2] & Hin2 & Hf2).
      apply in_map_iff in Hf2 as (f2' & <- & _).
      cbn [shift fst snd app] in Heq. injection Heq as Hname _.
      inversion Hd as [|? ? Hnot _]; subst. apply Hnot.
      apply in_map_iff. exists (name, c2). split; [reflexivity|].
      cbn [fst] in Hin2. exact Hin2.
  - constructor.
Qed.

Lemma NoDup_firstn {A} (k : nat) (l : list A) : NoDup l -> NoDup (firstn k l).
Proof.
  intros H. rewrite <- (firstn_skipn k l) in H.
  now apply NoDup_app_remove_r in H.
Qed.

(** X7.  In an export directory without repeated names, no two copies
    of a pass go to the same remote path: nothing that the pass sends is
    overwritten within the pass. *)
Theorem remote_paths_distinct fs rem exportDir ingestDir user pw ip :
  wellNamed fs = true ->
  NoDup (map remote_of
             (attempted (snd (scpDir fs rem exportDir ingestDir user pw ip)))).
Proof.
  intros Hw.
  destruct (connect_ok rem) eqn:Hc;
    [|unfold scpDir; rewrite Hc; constructor].
  pose proof (scpDir_outcome fs rem exportDir ingestDir user pw ip Hc) as Ho.
  set (E := map (expected_copy exportDir ingestDir) (files_under fs)) in *.
  assert (HE : NoDup (map remote_of E)).
  { unfold E. rewrite map_map. unfold expected_copy, remote_of, Join; cbn [fst snd].
    pose proof (files_under_NoDup fs Hw) as Hnd.
    rewrite <- (map_map (fun f => fst (fst f)) (app ingestDir)).
    apply NoDup_map_NoDup_ForallPairs; [|exact Hnd].
    intros a b _ _ Hab. now apply app_inv_head in Hab. }
  destruct (scpDir fs rem exportDir ingestDir user pw ip) as [e t].
  unfold outcome in Ho; cbn [fst snd] in *.
  destruct e as [[|p|p|p rp]|].
  - contradiction.
  - destruct Ho as (k & _ & _ & -> & _). rewrite <- firstn_map. now apply NoDup_firstn.
  - destruct Ho as (k & _ & _ & -> & _). rewrite <- firstn_map. now apply NoDup_firstn.
  - destruct Ho as (k & c & _ & _ & _ & _ & -> & _).
    rewrite <- firstn_map. now apply NoDup_firstn.
  - destruct Ho as (_ & -> & _). exact HE.
Qed.

Lemma remote_paths_distinct_witness :
  let fs :=
    Dir 16877 true
        [("a.jpg", File 33188 "AAAA" true);
         ("flight1", Dir 16877 true [("a.jpg", File 33152 "BB" true)])] in
  let rem := mkRemote true (fun _ => true) in
  NoDup (map remote_of
             (attempted (snd (scpDir fs rem ["home"; "pi"; "export"]
                                     ["home"; "sr-design"; "ingest"]
                                     "sr-design" "EC463" "10.193.141.194")))).
Proof.
  intros fs rem.
  apply (remote_paths_distinct fs rem). reflexivity.
Defined.

End ScpDirMore.

(** ** A pass that fails at a file *)

Module FailedTransfer.
Import Time Fs ScpDir ScpDirFacts ScpDirMore Trace Health FirstFailure.
Import Main MainFacts.

Lemma succeeded_None (r : option error * list Event) :
  succeeded r = true -> fst r = None.
Proof. unfold succeeded. destruct (fst r); [discriminate|reflexivity]. Qed.

(** The loop over the entries of a directory ends with the error of the
    first entry that fails when the entries before it went through. *)
Lemma walkEntries_first visit (here fine : string -> node -> bool) err es :
  Forall (fun e => here (fst e) (snd e) = true ->
                   fst (visit (fst e) (snd e)) = Some err) es ->
  Forall (fun e => fine (fst e) (snd e) = true ->
                   fst (visit (fst e) (snd e)) = None) es ->
  firstAmong here fine es = true ->
  fst (walkEntries visit es) = Some err.
Proof.
  induction es as [|[name c] es IH]; intros Hh Hf H; [discriminate|].
  cbn [firstAmong walkEntries fst snd] in *.
  pose proof (Forall_inv Hh) as Hh1. pose proof (Forall_inv Hf) as Hf1.
  cbn [fst snd] in Hh1, Hf1.
  apply Forall_inv_tail in Hh. apply Forall_inv_tail in Hf.
  destruct (here name c) eqn:E.
  - specialize (Hh1 eq_refl).
    destruct (visit name c) as [e t]. cbn [fst] in Hh1. now subst e.
  - cbn [orb] in H. apply andb_prop in H as [Hfine Hrest].
    specialize (Hf1 Hfine). specialize (IH Hh Hf Hrest).
    destruct (visit name c) as [e t]. cbn [fst] in Hf1. subst e.
    destruct (walkEntries visit es) as [e' t']. exact IH.
Qed.

Section Walk.
Variables (exportDir ingestDir : path) (rem : Remote).
Variables (kind : failure) (q : path).

(** When the file at [q] is the first thing to fail in the walk of a
    tree, the walk returns the error of that file. *)
Lemma walk_fails_first (n : node) : forall p,
  fails_first_at rem kind q p n = true ->
  fst (walk exportDir ingestDir rem p n)
  = Some (failure_error kind q
            (Join ingestDir
                  match Rel exportDir q with Some r => r | None => [] end)).
Proof.
  induction n as [m d o|m l es IH|] using node_nested_ind; intros p H.
  - cbn [fails_first_at] in H. apply andb_prop in H as [Hp Hk].
    unfold same_path in Hp. destruct (list_eq_dec string_dec p q) as [->|]; [|discriminate].
    cbn [walk walkFn]. destruct kind; cbn [failure_error].
    + apply negb_true_iff in Hk. now subst o.
    + apply andb_prop in Hk as [-> Hc]. apply negb_true_iff in Hc.
      cbn [fst]. now rewrite Hc.
  - cbn [fails_first_at] in H. apply andb_prop in H as [-> H].
    cbn [walk walkFn negb].
    pose proof (walkEntries_first
                  (fun name c => walk exportDir ingestDir rem (Join p [name]) c)
                  (fun name c => fails_first_at rem kind q (Join p [name]) c)
                  (fun name c => healthy rem (Join p [name]) c)
                  (failure_error kind q
                     (Join ingestDir
                           match Rel exportDir q with Some r => r | None => [] end))
                  es) as Hw.
    destruct (walkEntries _ es) as [e t]. cbn [fst] in *.
    apply Hw; [| |exact H].
    + eapply Forall_impl; [|exact IH]. intros [name c] Hc. apply Hc.
    + apply Forall_forall. intros [name c] _ Hh. cbn [fst snd] in *.
      apply succeeded_None. now rewrite walk_healthy.
  - discriminate.
Qed.

End Walk.

(** C4.  When the open or the copy of a file fails during a pass (the
    file at [p] is the first thing to fail in the walk, after a successful
    connect), [scpDir] returns the error of that file; the copies made are
    those of the files before [p] in walk order and stay made, [p] is the
    last file opened, no later file is attempted; the iteration then
    removes nothing, leaves the export directory as it found it at the
    walk, logs the error and sleeps five seconds. *)
Theorem failed_transfer_keeps_staging home w fs name names p kind :
  readDir fs = Some (name :: names) ->
  connect_ok (remote w) = true ->
  fails_first_at (remote w) kind p (exportDir home) (before_walk w fs) = true ->
  exists rel t,
    p = Join (exportDir home) rel
    /\ scpDir (before_walk w fs) (remote w) (exportDir home) ingestDir
              remoteUser remotePassword remoteIp
       = (Some (failure_error kind p (Join ingestDir rel)), t)
    /\ (exists k,
           let E := map (expected_copy (exportDir home) ingestDir)
                        (files_under (before_walk w fs)) in
           nth_error (map src_of E) k = Some p
           /\ copied t = firstn k E
           /\ opened t = map src_of (firstn (S k) E)
           /\ (attempted t = firstn k E \/ attempted t = firstn (S k) E))
    /\ iteration home w fs
       = (before_walk w fs,
          ReadDir (exportDir home) (Some (name :: names)) :: t
            ++ [Log "Error occured on scp: %v"; Sleep (5 * Second)])
    /\ removals (snd (iteration home w fs)) = [].
Proof.
  intros Hdir Hc Hfail.
  pose proof (walk_fails_first (exportDir home) ingestDir (remote w) kind p
                (before_walk w fs) (exportDir home) Hfail) as Hw.
  pose proof (scpDir_outcome (before_walk w fs) (remote w) (exportDir home)
                ingestDir remoteUser remotePassword remoteIp Hc) as Ho.
  pose proof (scpDir_session (before_walk w fs) (remote w) (exportDir home)
                ingestDir remoteUser remotePassword remoteIp) as Hs.
  assert (Hfst : fst (scpDir (before_walk w fs) (remote w) (exportDir home)
                             ingestDir remoteUser remotePassword remoteIp)
                 = Some (failure_error kind p
                           (Join ingestDir
                                 match Rel (exportDir home) p with
                                 | Some r => r
                                 | None => []
                                 end))).
  { unfold scpDir. rewrite Hc.
    destruct (walk (exportDir home) ingestDir (remote w) (exportDir home)
                   (before_walk w fs)) as [e t0]. exact Hw. }
  destruct (scpDir (before_walk w fs) (remote w) (exportDir home) ingestDir
                   remoteUser remotePassword remoteIp) as [e t] eqn:Hscp.
  cbn [fst snd] in *. subst e.
  unfold outcome in Ho. cbn [fst snd] in Ho.
  assert (Hk : exists rel k,
             p = Join (exportDir home) rel
             /\ (let E := map (expected_copy (exportDir home) ingestDir)
                              (files_under (before_walk w fs)) in
                 nth_error (map src_of E) k = Some p
                 /\ copied t = firstn k E
                 /\ opened t = map src_of (firstn (S k) E)
                 /\ (attempted t = firstn k E \/ attempted t = firstn (S k) E))).
  { cbv zeta. destruct kind; cbn [failure_error] in Ho.
    - destruct Ho as (k & Hn & Hcop & Hatt & Hop).
      assert (Hrel : exists rel, p = Join (exportDir home) rel).
      { rewrite nth_error_map in Hn.
        destruct (nth_error _ k) as [c|] eqn:En; [|discriminate].
        injection Hn as <-. apply nth_error_In in En.
        apply in_map_iff in En as (f & <- & _). now exists (fst (fst f)). }
      destruct Hrel as [rel Hrel]. exists rel, k. tauto.
    - destruct Ho as (k & c & Hn & Hsrc & _ & Hcop & Hatt & Hop).
      assert (Hrel : exists rel, p = Join (exportDir home) rel).
      { apply nth_error_In in Hn. apply in_map_iff in Hn as (f & <- & _).
        exists (fst (fst f)). now rewrite <- Hsrc. }
      destruct Hrel as [rel Hrel]. exists rel, k.
      repeat split; try tauto.
      rewrite nth_error_map, Hn. cbn. now rewrite Hsrc. }
  destruct Hk as (rel & k & Hrel & HE).
  assert (Hi : iteration home w fs
     = (before_walk w fs,
        ReadDir (exportDir home) (Some (name :: names)) :: t
          ++ [Log "Error occured on scp: %v"; Sleep (5 * Second)])).
  { unfold iteration. rewrite Hdir, Hscp. reflexivity. }
  exists rel, t. split; [exact Hrel|]. split.
  - f_equal. f_equal. f_equal. f_equal.
    rewrite Hrel. unfold Join. now rewrite Rel_app.
  - split; [now exists k|]. split; [exact Hi|].
    rewrite Hi. cbn [snd removals]. rewrite removals_app.
    now rewrite (session_no_removals _ Hs).
Qed.

(** Three pictures; the copy of the second one fails. *)
Lemma failed_transfer_keeps_staging_witness :
  let home := ["home"; "pi"] in
  let fs := Dir 16877 true
                [("1.jpg", File 33188 "one" true);
                 ("2.jpg", File 33188 "two" true);
                 ("3.jpg", File 33188 "three" true)] in
  let p := ["home"; "pi"; "export"; "2.jpg"] in
  let w := quiet (mkRemote true (fun q => if list_eq_dec string_dec q p then false else true))
                 (fun _ => true) in
  exists rel t,
    p = Join (exportDir home) rel
    /\ scpDir (before_walk w fs) (remote w) (exportDir home) ingestDir
              remoteUser remotePassword remoteIp
       = (Some (failure_error CopyFails p (Join ingestDir rel)), t)
    /\ (exists k,
           let E := map (expected_copy (exportDir home) ingestDir)
                        (files_under (before_walk w fs)) in
           nth_error (map src_of E) k = Some p
           /\ copied t = firstn k E
           /\ opened t = map src_of (firstn (S k) E)
           /\ (attempted t = firstn k E \/ attempted t = firstn (S k) E))
    /\ iteration home w fs
       = (before_walk w fs,
          ReadDir (exportDir home) (Some ["1.jpg"; "2.jpg"; "3.jpg"]) :: t
            ++ [Log "Error occured on scp: %v"; Sleep (5 * Second)])
    /\ removals (snd (iteration home w fs)) = [].
Proof.
  intros home fs p w.
  apply (failed_transfer_keeps_staging home w fs "1.jpg" ["2.jpg"; "3.jpg"]
           p CopyFails); reflexivity.
Defined.

End FailedTransfer.

(** ** The connectivity manager: outcome, commands, text matching *)

Module ConnectivityMore.
Import Trace Observe Connectivity ConnectivityFacts ConnectivitySpec.

Lemma connectTo_spec nm ssid pw :
  fst (connectTo nm ssid pw) = ran_ok (nm (connectArgs nm ssid pw))
  /\ filter is_exec (snd (connectTo nm ssid pw))
     = [Exec "nmcli" ["con"; "show"; ssid];
        Exec "nmcli" (connectArgs nm ssid pw)]
  /\ filter is_connect_cmd (snd (connectTo nm ssid pw))
     = [Exec "nmcli" (connectArgs nm ssid pw)]
  /\ List.last (filter is_exec (snd (connectTo nm ssid pw))) (Log "")
     = Exec "nmcli" (connectArgs nm ssid pw)
  /\ forallb (fun e => is_exec e || is_log e) (snd (connectTo nm ssid pw)) = true.
Proof.
  unfold connectTo, connectArgs.
  destruct (nm ["con"; "show"; ssid]) as [o|].
  - destruct (nm ["device"; "wifi"; "connect"; ssid]); repeat split.
  - destruct (String.eqb pw "").
    + destruct (nm ["device"; "wifi"; "connect"; ssid]); repeat split.
    + cbn [app].
      destruct (nm ["device"; "wifi"; "connect"; ssid; "remotePassword"; pw]);
        repeat split.
Qed.

Lemma scanLoop_cases nm ssid pw lines :
  scanLoop nm ssid pw lines
  = if existsb (matches ssid) lines then connectTo nm ssid pw else (false, []).
Proof.
  destruct (existsb (matches ssid) lines) eqn:E.
  - now apply scanLoop_match.
  - now apply scanLoop_no_match.
Qed.

(** X8.  [findAndConnect] returns true exactly when the scan ran, one of
    its lines contains the network name and WPA2, and the connect
    command ran without error; whether [nmcli con show] found a profile
    only selects the arguments of that command. *)
Theorem findAndConnect_true_iff (nm : Nmcli) (ssid remotePassword : string) :
  fst (findAndConnect nm ssid remotePassword)
  = match nm scanArgs with
    | None => false
    | Some out =>
        existsb (matches ssid) (scanLines out)
        && ran_ok (nm (connectArgs nm ssid remotePassword))
    end.
Proof.
  unfold findAndConnect. destruct (nm scanArgs) as [out|]; [|reflexivity].
  rewrite scanLoop_cases.
  destruct (existsb (matches ssid) (scanLines out)); [|reflexivity].
  pose proof (connectTo_spec nm ssid remotePassword) as [H _].
  destruct (connectTo nm ssid remotePassword). exact H.
Qed.

(** X9.  One call of [findAndConnect] never retries: it runs the rescan
    and the scan first, then at most [con show] and one connect command,
    the connect command being the last command it runs; apart from
    running [nmcli] it only logs. *)
Theorem findAndConnect_commands (nm : Nmcli) (ssid remotePassword : string) :
  let t := snd (findAndConnect nm ssid remotePassword) in
  firstn 2 (filter is_exec t) = [Exec "nmcli" rescanArgs; Exec "nmcli" scanArgs]
  /\ (List.length (filter is_exec t) <= 4)%nat
  /\ (filter is_connect_cmd t = []
      \/ filter is_connect_cmd t = [List.last (filter is_exec t) (Log "")])
  /\ forallb (fun e => is_exec e || is_log e) t = true.
Proof.
  unfold findAndConnect. destruct (nm scanArgs) as [out|].
  - rewrite scanLoop_cases.
    destruct (existsb (matches ssid) (scanLines out)).
    + pose proof (connectTo_spec nm ssid remotePassword)
        as (_ & He & Hc & Hl & Hf).
      destruct (connectTo nm ssid remotePassword) as [res t]. cbn [snd] in *.
      cbv zeta. cbn [filter is_exec is_connect_cmd rescanArgs scanArgs].
      rewrite He, Hc. cbn [forallb is_exec is_log orb andb]. rewrite Hf.
      repeat split; [cbn; lia|right; reflexivity].
    + cbv zeta. repeat split; [cbn; lia|left; reflexivity].
  - cbv zeta. repeat split; [cbn; lia|left; reflexivity].
Qed.

(** X10.  When [nmcli con show] finds a profile for the network, the
    connect command carries no credentials, whatever password was
    supplied. *)
Theorem existing_profile_connects_without_password
        (nm : Nmcli) (ssid remotePassword out profile : string) :
  nm scanArgs = Some out ->
  existsb (matches ssid) (scanLines out) = true ->
  nm ["con"; "show"; ssid] = Some profile ->
  filter is_connect_cmd (snd (findAndConnect nm ssid remotePassword))
  = [Exec "nmcli" ["device"; "wifi"; "connect"; ssid]].
Proof.
  intros Hscan Hm Hshow. unfold findAndConnect. rewrite Hscan, scanLoop_cases, Hm.
  pose proof (connectTo_spec nm ssid remotePassword) as (_ & _ & Hc & _).
  destruct (connectTo nm ssid remotePassword) as [res t]. cbn [snd] in *.
  cbn [filter is_connect_cmd rescanArgs scanArgs].
  rewrite Hc. unfold connectArgs. now rewrite Hshow.
Qed.

Lemma existing_profile_connects_without_password_witness :
  let out := ("SSID  SIGNAL  SECURITY" ++ String LF ""
              ++ "pi4  82  WPA2" ++ String LF "")%string in
  let nm : Nmcli := fun args =>
    if list_eq_dec string_dec args scanArgs then Some out
    else Some "pi4-profile"%string in
  filter is_connect_cmd (snd (findAndConnect nm "pi4" "passyword"))
  = [Exec "nmcli" ["device"; "wifi"; "connect"; "pi4"]].
Proof.
  intros out nm.
  apply (existing_profile_connects_without_password nm "pi4" "passyword" out
           "pi4-profile"); reflexivity.
Defined.

Lemma HasPrefix_spec s : forall prefix,
  HasPrefix s prefix = true <-> exists b, s = (prefix ++ b)%string.
Proof.
  induction s as [|c s IH]; intros [|a prefix]; cbn [HasPrefix].
  - split; [exists ""%string; reflexivity|reflexivity].
  - split; [discriminate|intros [b Hb]; discriminate].
  - split; [intros _; eexists; reflexivity|reflexivity].
  - rewrite andb_true_iff, Ascii.eqb_eq, IH. split.
    + intros [-> [b ->]]. now exists b.
    + intros [b Hb]. cbn in Hb. injection Hb as -> ->. split; [reflexivity|now exists b].
Qed.

(** X11.  [Contains], the test on which the scan loop relies, is the
    substring relation: it holds exactly when the text occurs somewhere in
    the line; in particular the empty text occurs in every line. *)
Theorem Contains_substring (s sub : string) :
  (Contains s sub = true <-> substring sub s)
  /\ Contains s "" = true.
Proof.
  split.
  - induction s as [|c s IH]; cbn [Contains]; rewrite orb_true_iff, HasPrefix_spec.
    + split.
      * intros [[b Hb]|H]; [|discriminate]. exists ""%string, b. exact Hb.
      * intros (a & b & H). left. destruct a as [|x a]; [now exists b|discriminate].
    + rewrite IH. split.
      * intros [[b Hb]|(a & b & ->)].
        -- exists ""%string, b. exact Hb.
        -- exists (String c a), b. reflexivity.
      * intros ([|x a] & b & H).
        -- left. now exists b.
        -- right. cbn in H. injection H as -> ->. now exists a, b.
  - destruct s; reflexivity.
Qed.

Lemma string_app_single (a : string) c b :
  ((a ++ String c "") ++ b = a ++ String c b)%string.
Proof.
  induction a as [|x a IHa]; cbn; [reflexivity|now rewrite IHa].
Qed.

Lemma string_app_nil (a : string) : (a ++ "" = a)%string.
Proof.
  induction a as [|x a IHa]; cbn; [reflexivity|now rewrite IHa].
Qed.

Lemma scanLinesFrom_plain line : forall cur rest,
  plain_line line = true ->
  fits (cur ++ line) = true ->
  scanLinesFrom cur (line ++ String LF rest)
  = dropCR (cur ++ line) :: scanLinesFrom "" rest.
Proof.
  induction line as [|c line IH]; intros cur rest Hp Hfit.
  - cbn [String.append scanLinesFrom]. rewrite Ascii.eqb_refl.
    rewrite string_app_nil in *. now rewrite Hfit.
  - assert (Hc : Ascii.eqb c LF = false /\ plain_line line = true).
    { cbn [plain_line] in Hp. destruct line as [|d line].
      - apply andb_prop in Hp as [H1 _]. apply negb_true_iff in H1. now split.
      - apply andb_prop in Hp as [H1 H2]. apply negb_true_iff in H1. now split. }
    destruct Hc as [Hc Hl].
    change ((String c line ++ String LF rest)%string)
      with (String c (line ++ String LF rest)%string).
    cbn [scanLinesFrom]. rewrite Hc, IH; [now rewrite string_app_single|exact Hl|].
    now rewrite string_app_single.
Qed.

Lemma dropCR_plain line : plain_line line = true -> dropCR line = line.
Proof.
  induction line as [|c line IH]; [reflexivity|].
  destruct line as [|d line].
  - cbn [plain_line dropCR]. intros H. apply andb_prop in H as [_ H].
    apply negb_true_iff in H. now rewrite H.
  - intros H. change (plain_line (String c (String d line)))
      with (negb (Ascii.eqb c LF) && plain_line (String d line)) in H.
    apply andb_prop in H as [_ H].
    change (dropCR (String c (String d line)))
      with (String c (dropCR (String d line))).
    now rewrite IH.
Qed.

(** X12.  The scanner gives back the lines that were written: a text made
    of lines without line feed and without a carriage return at the end,
    each short enough for the scanner's buffer and ended by a line feed,
    is split into exactly those lines. *)
Theorem scanLines_unlines (lines : list string) :
  forallb plain_line lines = true ->
  forallb fits lines = true ->
  scanLines (unlines lines) = lines.
Proof.
  unfold scanLines. induction lines as [|line lines IH]; [reflexivity|].
  cbn [forallb unlines]. intros H Hf.
  apply andb_prop in H as [Hl Hr]. apply andb_prop in Hf as [Hfl Hfr].
  rewrite scanLinesFrom_plain by assumption.
  cbn [String.append]. rewrite (dropCR_plain _ Hl). f_equal. now apply IH.
Qed.

Lemma scanLines_unlines_witness :
  scanLines (unlines ["SSID  SIGNAL  SECURITY"; "pi4  82  WPA2"; ""])
  = ["SSID  SIGNAL  SECURITY"; "pi4  82  WPA2"; ""]%string.
Proof.
  apply (scanLines_unlines ["SSID  SIGNAL  SECURITY"; "pi4  82  WPA2"; ""]%string);
    reflexivity.
Defined.

End ConnectivityMore.

(** ** The watcher loop: delays, cleanup, retries *)

Module MainMore.
Import Time Fs ScpDir ScpDirFacts ScpDirMore Trace Observe Health Residue.
Import Main MainFacts MainSpec.

Lemma sleeps_app t1 t2 : sleeps (t1 ++ t2) = sleeps t1 ++ sleeps t2.
Proof. apply flat_map_app. Qed.

Lemma failed_removals_app t1 t2 :
  failed_removals (t1 ++ t2) = failed_removals t1 ++ failed_removals t2.
Proof. apply flat_map_app. Qed.

Lemma session_quiet t :
  Forall (fun e => is_session e = true) t ->
  sleeps t = [] /\ failed_removals t = [].
Proof.
  induction 1 as [|e t He _ [IH1 IH2]]; [split; reflexivity|].
  destruct e; try discriminate He; split; assumption.
Qed.

Section Cleanup.
Variables (home : path) (w : World).

(** The cleanup loop sleeps five seconds once for every removal that
    failed, and not otherwise. *)
Lemma removeEntries_sleeps names : forall fs,
  sleeps (snd (removeEntries home w names fs))
  = repeat (5 * Second)
           (List.length (failed_removals (snd (removeEntries home w names fs)))).
Proof.
  induction names as [|name names IH]; intros fs; [reflexivity|].
  rewrite removeEntries_cons.
  destruct (remains home w name fs); cbn [snd]; unfold sleeps, failed_removals in *;
    cbn [flat_map app List.length repeat]; now rewrite IH.
Qed.

End Cleanup.

Lemma last_app_single {A} (l : list A) a d : List.last (l ++ [a]) d = a.
Proof. apply last_last. Qed.

(** X13.  Every iteration ends with one sleep: five minutes when it got
    to the cleanup loop (a listed entry, a pass without error, a second
    listing), five seconds otherwise.  Before that it sleeps five seconds
    once for each removal that failed.  It attempts removals, of all the
    entries of the second listing, only when it got to the cleanup
    loop. *)
Theorem iteration_delays home w fs :
  let t := snd (iteration home w fs) in
  let last_delay :=
    if reaches_cleanup home w fs then 5 * Minute else 5 * Second in
  List.last t (Log "") = Sleep last_delay
  /\ sleeps t
     = repeat (5 * Second) (List.length (failed_removals t)) ++ [last_delay]
  /\ removals t
     = if reaches_cleanup home w fs
       then map (fun n => Join (exportDir home) [n]) (cleanup_names w fs)
       else [].
Proof.
  unfold reaches_cleanup, cleanup_names, at_cleanup, iteration.
  destruct (readDir fs) as [[|n names]|]; [repeat split| |repeat split].
  pose proof (scpDir_session (before_walk w fs) (remote w) (exportDir home)
                ingestDir remoteUser remotePassword remoteIp) as Hs.
  unfold succeeded.
  destruct (scpDir _ _ _ _ _ _ _) as [[err|] t]; cbn [fst snd] in *.
  - destruct (session_quiet _ Hs) as [Hsl Hfr]. cbv zeta. cbn [andb].
    repeat split.
    + change [Log "Error occured on scp: %v"; Sleep (5 * Second)]
        with ([Log "Error occured on scp: %v"] ++ [Sleep (5 * Second)]).
      rewrite app_comm_cons, app_assoc. apply last_last.
    + unfold sleeps, failed_removals in *. cbn [flat_map app].
      rewrite !flat_map_app, Hsl, Hfr. reflexivity.
    + cbn [removals]. rewrite removals_app, (session_no_removals _ Hs). reflexivity.
  - destruct (session_quiet _ Hs) as [Hsl Hfr]. cbn [andb].
    destruct (readDir (before_cleanup w (before_walk w fs))) as [names2|].
    + pose proof (removeEntries_sleeps home w names2
                    (before_cleanup w (before_walk w fs))) as Hrs.
      pose proof (removeEntries_removals home w names2
                    (before_cleanup w (before_walk w fs))) as Hrr.
      destruct (removeEntries home w names2 _) as [fs3 t3]. cbn [snd] in *.
      cbv zeta. repeat split.
      * change [Log "Sleeping for a bit"; Sleep (5 * Minute)]
          with ([Log "Sleeping for a bit"] ++ [Sleep (5 * Minute)]).
        rewrite app_comm_cons, !app_assoc. apply last_last.
      * change (ReadDir (exportDir home) (Some (n :: names)) :: t ++ ?x)
          with ([ReadDir (exportDir home) (Some (n :: names))] ++ t ++ x).
        rewrite !sleeps_app, !failed_removals_app, Hsl, Hfr, Hrs.
        cbn [sleeps failed_removals flat_map app List.length].
        now rewrite !app_nil_r.
      * cbn [removals]. rewrite !removals_app, (session_no_removals _ Hs), Hrr.
        cbn [removals app]. now rewrite app_nil_r.
    + cbv zeta. cbn [snd]. repeat split.
      * change [Log "Deleteing local files"; ReadDir (exportDir home) None;
                Log "Failed to delete %v"; Sleep (5 * Second)]
          with ([Log "Deleteing local files"; ReadDir (exportDir home) None;
                 Log "Failed to delete %v"] ++ [Sleep (5 * Second)]).
        rewrite app_comm_cons, app_assoc. apply last_last.
      * unfold sleeps, failed_removals in *. cbn [flat_map app].
        rewrite !flat_map_app, Hsl, Hfr. reflexivity.
      * cbn [removals]. rewrite removals_app, (session_no_removals _ Hs). reflexivity.
Qed.

Lemma fold_removeEntry names : forall m l es,
  fold_left (fun fs n => removeEntry n fs) names (Dir m l es)
  = Dir m l (filter (fun e => negb (existsb (String.eqb (fst e)) names)) es).
Proof.
  induction names as [|n names IH]; intros m l es.
  - cbn. f_equal. induction es as [|e es IHes]; [reflexivity|].
    cbn. now rewrite <- IHes.
  - cbn [fold_left removeEntry]. rewrite IH. f_equal.
    induction es as [|e es IHes]; [reflexivity|].
    cbn [filter existsb]. destruct (String.eqb (fst e) n); cbn [negb orb filter].
    + exact IHes.
    + destruct (existsb (String.eqb (fst e)) names); cbn [negb]; now rewrite IHes.
Qed.

Section Residue.
Variables (home : path) (w : World).

Lemma find_after (name : string) (c : node) pre es :
  ~ In name (map fst pre) ->
  find (fun e : string * node => String.eqb (fst e) name) (pre ++ (name, c) :: es)
  = Some (name, c).
Proof.
  induction pre as [|x pre IH]; intros Hn.
  - cbn. now rewrite String.eqb_refl.
  - cbn [app find]. destruct (String.eqb (fst x) name) eqn:E.
    + apply String.eqb_eq in E. exfalso. apply Hn. left. exact E.
    + apply IH. intros H. apply Hn. now right.
Qed.

Lemma filter_other (name : string) (l : list (string * node)) :
  ~ In name (map fst l) ->
  filter (fun e => negb (String.eqb (fst e) name)) l = l.
Proof.
  induction l as [|x l IH]; intros Hn; [reflexivity|].
  cbn [filter]. destruct (String.eqb (fst x) name) eqn:E.
  - apply String.eqb_eq in E. exfalso. apply Hn. left. exact E.
  - cbn [negb]. f_equal. apply IH. intros H. apply Hn. now right.
Qed.

Lemma replace_other (name : string) (c : node) (l : list (string * node)) :
  ~ In name (map fst l) ->
  map (fun e => if String.eqb (fst e) name then (fst e, c) else e) l = l.
Proof.
  induction l as [|x l IH]; intros Hn; [reflexivity|].
  cbn [map]. destruct (String.eqb (fst x) name) eqn:E.
  - apply String.eqb_eq in E. exfalso. apply Hn. left. exact E.
  - f_equal. apply IH. intros H. apply Hn. now right.
Qed.

(** With distinct names, the cleanup loop over the names of [es] leaves of
    each entry what [os.RemoveAll] leaves of it, and the removals that
    failed are those of the entries still there. *)
Lemma removeEntries_residue es : forall pre m l,
  NoDup (map fst (pre ++ es)) ->
  fst (removeEntries home w (map fst es) (Dir m l (pre ++ es)))
  = Dir m l (pre ++ residue (remove_ok w) (exportDir home) es)
  /\ failed_removals (snd (removeEntries home w (map fst es) (Dir m l (pre ++ es))))
     = map (fun x => Join (exportDir home) [fst x])
           (residue (remove_ok w) (exportDir home) es).
Proof.
  induction es as [|[name c] es IH]; intros pre m l Hnd.
  - cbn. split; reflexivity.
  - assert (Hout : ~ In name (map fst pre) /\ ~ In name (map fst es)
                   /\ NoDup (map fst (pre ++ es))).
    { rewrite map_app in Hnd. cbn [map fst] in Hnd.
      pose proof (NoDup_remove _ _ _ Hnd) as [Hnd' Hnot].
      rewrite map_app. repeat split; [| |exact Hnd'];
        intros H; apply Hnot; apply in_or_app; [now left|now right]. }
    destruct Hout as (Hpre & Hes & Hnd').
    cbn [map fst]. rewrite removeEntries_cons.
    unfold remains. cbn [findEntry]. rewrite (find_after name c pre es Hpre).
    cbn [option_map snd]. unfold residue in *. cbn [flat_map fst snd].
    destruct (removeAll (remove_ok w) (Join (exportDir home) [name]) c) as [c'|].
    + cbn [fst snd replaceEntry]. rewrite map_app. cbn [map fst].
      rewrite String.eqb_refl, (replace_other name c' pre Hpre),
        (replace_other name c' es Hes).
      specialize (IH (pre ++ [(name, c')]) m l).
      rewrite <- !app_assoc in IH. cbn [app] in IH.
      destruct IH as [IH1 IH2].
      { rewrite map_app. cbn [map fst]. rewrite map_app in Hnd.
        exact Hnd. }
      split; [exact IH1|].
      unfold failed_removals in *. cbn [flat_map app map fst]. now rewrite IH2.
    + cbn [fst snd removeEntry]. rewrite filter_app. cbn [filter fst].
      rewrite String.eqb_refl. cbn [negb].
      rewrite (filter_other name pre Hpre), (filter_other name es Hes).
      destruct (IH pre m l Hnd') as [IH1 IH2].
      split; [exact IH1|].
      unfold failed_removals in *. cbn [flat_map app]. exact IH2.
Qed.

(** When every single removal succeeds, nothing is left of a healthy
    tree. *)
Lemma removeAll_healthy rem (ok : path -> bool) (n : node) :
  (forall q, ok q = true) ->
  forall p p', healthy rem p n = true -> removeAll ok p' n = None.
Proof.
  intros Hok.
  induction n as [m d o|m l es IH|] using node_nested_ind; intros p p' Hh.
  - cbn [removeAll]. now rewrite Hok.
  - cbn [healthy] in Hh. apply andb_prop in Hh as [-> Hall].
    cbn [removeAll].
    assert (Hleft : flat_map (fun e =>
                       match removeAll ok (Join p' [fst e]) (snd e) with
                       | None => []
                       | Some c => [(fst e, c)]
                       end) es = []).
    { induction IH as [|e es He _ IHes]; [reflexivity|].
      cbn [forallb] in Hall. apply andb_prop in Hall as [Hh Hall].
      cbn [flat_map]. rewrite (He _ (Join p' [fst e]) Hh). now apply IHes. }
    rewrite Hleft. now rewrite Hok.
  - discriminate.
Qed.

(** When the removal of every entry that is there succeeds, the loop
    leaves the directory without the listed names. *)
Lemma removeEntries_all_gone names : forall m l es,
  Forall (fun e => forall p, removeAll (remove_ok w) p (snd e) = None) es ->
  fst (removeEntries home w names (Dir m l es))
  = fold_left (fun fs n => removeEntry n fs) names (Dir m l es).
Proof.
  induction names as [|name names IH]; intros m l es Hall; [reflexivity|].
  rewrite removeEntries_cons.
  assert (Hr : remains home w name (Dir m l es) = None).
  { unfold remains. cbn [findEntry].
    destruct (find _ es) as [x|] eqn:E; [|reflexivity].
    cbn [option_map]. apply find_some in E as [Hin _].
    apply (proj1 (Forall_forall _ _) Hall x Hin). }
  rewrite Hr. cbn [fst fold_left removeEntry]. apply IH.
  apply Forall_forall. intros x Hx. apply filter_In in Hx as [Hx _].
  apply (proj1 (Forall_forall _ _) Hall x Hx).
Qed.

End Residue.

(** X14.  With nothing else touching the export directory, an iteration
    whose pass returns nil leaves of every entry exactly what
    [os.RemoveAll] could not remove of it: the entries still listed are
    those whose removal failed, in listing order; and it has copied every
    file that was under the directory. *)
Theorem cleanup_leaves_failed_entries home r rm m e es :
  succeeded (scpDir (Dir m true (e :: es)) r (exportDir home) ingestDir
                    remoteUser remotePassword remoteIp) = true ->
  distinct (map fst (e :: es)) = true ->
  let fs := Dir m true (e :: es) in
  let it := iteration home (quiet r rm) fs in
  fst it = Dir m true (residue rm (exportDir home) (e :: es))
  /\ failed_removals (snd it)
     = map (fun x => Join (exportDir home) [fst x])
           (residue rm (exportDir home) (e :: es))
  /\ copied (snd it)
     = map (expected_copy (exportDir home) ingestDir) (files_under fs).
Proof.
  intros Hok Hd fs it. subst it. unfold iteration.
  change (readDir fs) with (Some (fst e :: map fst es)).
  cbn [quiet before_walk before_cleanup remote].
  assert (Hc : connect_ok r = true).
  { unfold succeeded, scpDir in Hok. destruct (connect_ok r); [reflexivity|discriminate]. }
  pose proof (scpDir_outcome fs r (exportDir home) ingestDir
                remoteUser remotePassword remoteIp Hc) as Ho.
  pose proof (scpDir_session fs r (exportDir home) ingestDir
                remoteUser remotePassword remoteIp) as Hs.
  fold fs in Hok. unfold succeeded in Hok.
  destruct (scpDir fs r (exportDir home) ingestDir remoteUser remotePassword remoteIp)
    as [[err|] t]; [discriminate|].
  destruct Ho as (Hcop & _). cbn [fst snd] in *.
  change (readDir fs) with (Some (fst e :: map fst es)). cbv iota beta.
  destruct (session_quiet _ Hs) as [_ Hfr].
  pose proof (removeEntries_residue home (quiet r rm) (e :: es) [] m true
                (distinct_NoDup _ Hd)) as [Hfs Hfail].
  pose proof (removeEntries_no_copy home (quiet r rm) (map fst (e :: es)) fs) as Hnc.
  cbn [app quiet remove_ok] in Hfs, Hfail. fold fs in Hfs, Hfail.
  change (fst e :: map fst es) with (map fst (e :: es)).
  destruct (removeEntries home (quiet r rm) (map fst (e :: es)) fs) as [fs3 t3].
  cbn [fst snd] in *. repeat split.
  - exact Hfs.
  - change (ReadDir (exportDir home) (Some (map fst (e :: es))) :: t ++ ?x)
      with ([ReadDir (exportDir home) (Some (map fst (e :: es)))] ++ t ++ x).
    rewrite !failed_removals_app, Hfr, Hfail.
    cbn [failed_removals flat_map app]. now rewrite app_nil_r.
  - cbn [copied]. rewrite !copied_app, Hcop, Hnc. cbn [copied app].
    now rewrite !app_nil_r.
Qed.

(** A picture that is removed, a flight directory of which one picture
    cannot be removed, and a picture that cannot be removed. *)
Lemma cleanup_leaves_failed_entries_witness :
  let home := ["home"; "pi"] in
  let r := mkRemote true (fun _ => true) in
  let rm := fun q : path =>
    if list_eq_dec string_dec q ["home"; "pi"; "export"; "3.jpg"] then false
    else if list_eq_dec string_dec q ["home"; "pi"; "export"; "flight"; "b.jpg"]
         then false else true in
  let e := ("1.jpg", File 33188 "one" true) in
  let es := [("flight", Dir 16877 true [("a.jpg", File 33188 "a" true);
                                        ("b.jpg", File 33188 "b" true)]);
             ("3.jpg", File 33188 "three" true)] in
  let fs := Dir 16877 true (e :: es) in
  let it := iteration home (quiet r rm) fs in
  fst it = Dir 16877 true (residue rm (exportDir home) (e :: es))
  /\ failed_removals (snd it)
     = map (fun x => Join (exportDir home) [fst x])
           (residue rm (exportDir home) (e :: es))
  /\ copied (snd it)
     = map (expected_copy (exportDir home) ingestDir) (files_under fs).
Proof.
  intros home r rm e es.
  apply (cleanup_leaves_failed_entries home r rm 16877 e es); reflexivity.
Defined.

(** X15.  With nothing else touching the export directory and every
    removal succeeding, an iteration whose pass returns nil empties the
    directory, and the iteration after it finds nothing to do: it lists,
    logs and sleeps five seconds. *)
Theorem successful_pass_then_idle home r w' m e es :
  succeeded (scpDir (Dir m true (e :: es)) r (exportDir home) ingestDir
                    remoteUser remotePassword remoteIp) = true ->
  let fs := Dir m true (e :: es) in
  let w := quiet r (fun _ => true) in
  fst (iteration home w fs) = Dir m true []
  /\ fst (loop home [w; w'] fs) = Dir m true []
  /\ snd (loop home [w; w'] fs)
     = snd (iteration home w fs)
         ++ [ReadDir (exportDir home) (Some []);
             Log "Nothing to do; sleeping";
             Sleep (5 * Second)].
Proof.
  intros Hok fs w.
  assert (Hfs : fst (iteration home w fs) = Dir m true []).
  { assert (Hh : healthy r (exportDir home) fs = true).
    { rewrite scpDir_healthy in Hok. now apply andb_prop in Hok as [_ Hh]. }
    unfold w, iteration.
    change (readDir fs) with (Some (fst e :: map fst es)).
    cbn [quiet before_walk before_cleanup remote].
    fold fs in Hok. unfold succeeded in Hok.
    destruct (scpDir fs r (exportDir home) ingestDir remoteUser remotePassword remoteIp)
      as [[err|] t]; [discriminate|].
    change (readDir fs) with (Some (fst e :: map fst es)). cbv iota beta.
    pose proof (removeEntries_all_gone home (quiet r (fun _ => true))
                  (map fst (e :: es)) m true (e :: es)) as H.
    change (fst e :: map fst es) with (map fst (e :: es)).
    fold fs in H.
    destruct (removeEntries home (quiet r (fun _ => true)) (map fst (e :: es)) fs)
      as [fs3 t3]. cbn [fst] in *.
    rewrite H.
    - unfold fs. rewrite fold_removeEntry. f_equal.
      assert (G : forall l : list (string * node),
                 filter (fun x => negb (existsb (String.eqb (fst x)) (map fst l))) l = []).
      { intros l.
        assert (G' : forall l0 : list (string * node), incl l0 l ->
                   filter (fun x => negb (existsb (String.eqb (fst x)) (map fst l))) l0 = []).
        { induction l0 as [|x l0 IHl]; intros Hin; [reflexivity|].
          cbn [filter].
          assert (Hx : existsb (String.eqb (fst x)) (map fst l) = true).
          { apply existsb_exists. exists (fst x). split; [|apply String.eqb_refl].
            apply in_map, Hin. now left. }
          rewrite Hx. cbn [negb]. apply IHl. intros y Hy. apply Hin. now right. }
        apply G', incl_refl. }
      apply G.
    - cbn [quiet remove_ok]. cbn [healthy] in Hh.
      apply Forall_forall. intros x Hx p.
      apply (removeAll_healthy r (fun _ => true) (snd x) (fun _ => eq_refl)
               (Join (exportDir home) [fst x]) p).
      apply (proj1 (forallb_forall _ _) Hh x Hx). }
  split; [exact Hfs|].
  cbn [loop]. destruct (iteration home w fs) as [fs1 t1]. cbn [fst snd] in *.
  subst fs1. cbn. split; reflexivity.
Qed.

Lemma successful_pass_then_idle_witness :
  let home := ["home"; "pi"] in
  let r := mkRemote true (fun _ => true) in
  let e := ("1.jpg", File 33188 "one" true) in
  let es := [("flight", Dir 16877 true [("2.jpg", File 33188 "two" true)])] in
  let fs := Dir 16877 true (e :: es) in
  let w := quiet r (fun _ => true) in
  fst (iteration home w fs) = Dir 16877 true []
  /\ fst (loop home [w; w] fs) = Dir 16877 true []
  /\ snd (loop home [w; w] fs)
     = snd (iteration home w fs)
         ++ [ReadDir (exportDir home) (Some []);
             Log "Nothing to do; sleeping";
             Sleep (5 * Second)].
Proof.
  intros home r e es fs w.
  apply (successful_pass_then_idle home r w 16877 e es). reflexivity.
Defined.

(** X16.  A pass that fails is retried from the first file: with nothing
    else touching the export directory, when the pass of one iteration
    returns an error and the pass of the next returns nil, the second
    iteration copies every file under the directory, those the failed pass
    had already copied included. *)
Theorem failed_pass_is_retried_in_full home r1 r2 rm1 rm2 fs n names :
  readDir fs = Some (n :: names) ->
  succeeded (scpDir fs r1 (exportDir home) ingestDir
                    remoteUser remotePassword remoteIp) = false ->
  succeeded (scpDir fs r2 (exportDir home) ingestDir
                    remoteUser remotePassword remoteIp) = true ->
  let it1 := iteration home (quiet r1 rm1) fs in
  let it2 := iteration home (quiet r2 rm2) (fst it1) in
  fst it1 = fs
  /\ copied (snd it2)
     = map (expected_copy (exportDir home) ingestDir) (files_under fs)
  /\ incl (copied (snd it1)) (copied (snd it2)).
Proof.
  intros Hdir H1 H2 it1 it2.
  assert (Hfs : fst it1 = fs).
  { subst it1. unfold iteration. rewrite Hdir.
    cbn [quiet before_walk before_cleanup remote].
    unfold succeeded in H1.
    destruct (scpDir fs r1 _ _ _ _ _) as [[err|] t]; [reflexivity|discriminate]. }
  assert (Hc2 : copied (snd it2)
                = map (expected_copy (exportDir home) ingestDir) (files_under fs)).
  { subst it2. rewrite Hfs. unfold iteration. rewrite Hdir.
    cbn [quiet before_walk before_cleanup remote].
    assert (Hc : connect_ok r2 = true).
    { unfold succeeded, scpDir in H2. destruct (connect_ok r2); [reflexivity|discriminate]. }
    pose proof (scpDir_outcome fs r2 (exportDir home) ingestDir
                  remoteUser remotePassword remoteIp Hc) as Ho.
    unfold succeeded in H2.
    destruct (scpDir fs r2 _ _ _ _ _) as [[err|] t]; [discriminate|].
    destruct Ho as (Hcop & _). cbn [fst snd] in *. rewrite Hdir.
    pose proof (removeEntries_no_copy home (quiet r2 rm2) (n :: names) fs) as Hnc.
    destruct (removeEntries home (quiet r2 rm2) (n :: names) fs) as [fs3 t3].
    cbn [snd] in *. cbn [copied]. rewrite !copied_app, Hcop, Hnc.
    cbn [copied app]. now rewrite !app_nil_r. }
  split; [exact Hfs|]. split; [exact Hc2|].
  rewrite Hc2. subst it1. unfold iteration. rewrite Hdir.
  cbn [quiet before_walk before_cleanup remote].
  destruct (connect_ok r1) eqn:Hc1.
  - pose proof (scpDir_outcome fs r1 (exportDir home) ingestDir
                  remoteUser remotePassword remoteIp Hc1) as Ho.
    unfold succeeded in H1.
    destruct (scpDir fs r1 _ _ _ _ _) as [[err|] t]; [|discriminate].
    cbn [fst snd] in *. cbn [copied]. rewrite copied_app. cbn [copied].
    rewrite app_nil_r. unfold outcome in Ho; cbn [fst snd] in Ho.
    intros c Hin.
    assert (Hpre : exists k, copied t
               = firstn k (map (expected_copy (exportDir home) ingestDir)
                               (files_under fs))).
    { destruct err as [|p|p|p rp]; [contradiction| | |].
      - destruct Ho as (k & _ & Hk & _). now exists k.
      - destruct Ho as (k & _ & Hk & _). now exists k.
      - destruct Ho as (k & c0 & _ & _ & _ & Hk & _). now exists k. }
    destruct Hpre as [k Hk]. rewrite Hk in Hin.
    rewrite <- (firstn_skipn k (map _ (files_under fs))).
    apply in_or_app. now left.
  - unfold scpDir. rewrite Hc1. cbn. intros c [].
Qed.

(** Three pictures; the first pass fails at the second one, the next
    pass goes through. *)
Lemma failed_pass_is_retried_in_full_witness :
  let home := ["home"; "pi"] in
  let fs := Dir 16877 true
                [("1.jpg", File 33188 "one" true);
                 ("2.jpg", File 33188 "two" true);
                 ("3.jpg", File 33188 "three" true)] in
  let r1 := mkRemote true (fun q =>
              if list_eq_dec string_dec q ["home"; "pi"; "export"; "2.jpg"]
              then false else true) in
  let r2 := mkRemote true (fun _ => true) in
  let it1 := iteration home (quiet r1 (fun _ => true)) fs in
  let it2 := iteration home (quiet r2 (fun _ => true)) (fst it1) in
  fst it1 = fs
  /\ copied (snd it2)
     = map (expected_copy (exportDir home) ingestDir) (files_under fs)
  /\ incl (copied (snd it1)) (copied (snd it2)).
Proof.
  intros home fs r1 r2.
  apply (failed_pass_is_retried_in_full home r1 r2 (fun _ => true) (fun _ => true)
           fs "1.jpg" ["2.jpg"; "3.jpg"]); reflexivity.
Defined.

End MainMore.

(** ** The watcher loop with the connectivity stage, and the first watcher *)

Module EarlierWatchers.
Import Time Fs ScpDir ScpDirFacts Trace Observe Health.
Import Connectivity ConnectivityFacts ConnectivitySpec ConnectivityMore.
Import MainFacts MainMore MainWithConnectivity Scripts.
Import Main(exportDir, ingestDir, remoteUser, remotePassword).

(** Events that are runs of [nmcli] or log lines are no sleeps, no
    removals and no copies. *)
Lemma runs_and_logs_quiet t :
  forallb (fun e => is_exec e || is_log e) t = true ->
  sleeps t = [] /\ removals t = [] /\ copied t = [].
Proof.
  induction t as [|e t IH]; [repeat split|].
  cbn [forallb]. intros H. apply andb_prop in H as [He Ht].
  destruct (IH Ht) as (H1 & H2 & H3).
  destruct e; try discriminate He; repeat split; assumption.
Qed.

Lemma scanLoop_runs_and_logs nm ssid pw lines :
  forallb (fun e => is_exec e || is_log e) (snd (scanLoop nm ssid pw lines)) = true.
Proof.
  rewrite scanLoop_cases. destruct (existsb (matches ssid) lines); [|reflexivity].
  apply (connectTo_spec nm ssid pw).
Qed.

Lemma findAndConnect_runs_and_logs nm ssid pw :
  forallb (fun e => is_exec e || is_log e) (snd (findAndConnect nm ssid pw)) = true.
Proof.
  unfold findAndConnect. destruct (nm scanArgs) as [out|]; [|reflexivity].
  pose proof (scanLoop_runs_and_logs nm ssid pw (scanLines out)) as H.
  destruct (scanLoop nm ssid pw (scanLines out)) as [res t]. exact H.
Qed.

Lemma transfer_shape home rem fs :
  removals (transfer home rem fs) = []
  /\ sleeps (transfer home rem fs)
     = [if succeeded (scpDir fs rem (exportDir home) ingestDir
                             remoteUser remotePassword ip)
        then 5 * Minute else 5 * Second]
  /\ copied (transfer home rem fs)
     = copied (snd (scpDir fs rem (exportDir home) ingestDir
                           remoteUser remotePassword ip)).
Proof.
  unfold transfer, succeeded.
  pose proof (scpDir_session fs rem (exportDir home) ingestDir
                remoteUser remotePassword ip) as Hs.
  destruct (scpDir fs rem (exportDir home) ingestDir remoteUser remotePassword ip)
    as [[err|] t]; cbn [fst snd] in *;
    destruct (session_quiet _ Hs) as [Hsl _];
    rewrite removals_app, sleeps_app, copied_app, Hsl,
      (session_no_removals _ Hs);
    cbn [removals copied sleeps flat_map app]; rewrite ?app_nil_r;
    repeat split.
Qed.

(** X17.  The loop with the connectivity stage never removes anything
    from the export directory, so every pass sends all of it again.  Its
    iteration sleeps once, at its end: five minutes when [findAndConnect]
    returned true and the pass returned nil, five seconds otherwise; and
    what it copies is what [scpDir] copies when [findAndConnect] returned
    true, and nothing otherwise. *)
Theorem connected_loop_never_cleans home nm rem fs :
  let t := connectedIteration home nm rem fs in
  let connected := fst (findAndConnect nm ssid "passyword") in
  let pass := scpDir fs rem (exportDir home) ingestDir
                     remoteUser remotePassword ip in
  removals t = []
  /\ sleeps t
     = [if connected && succeeded pass then 5 * Minute else 5 * Second]
  /\ copied t = (if connected then copied (snd pass) else []).
Proof.
  unfold connectedIteration. cbn [checkIfConnected negb].
  pose proof (findAndConnect_runs_and_logs nm ssid "passyword") as Hq.
  destruct (findAndConnect nm ssid "passyword") as [res t1]. cbn [fst snd] in *.
  destruct (runs_and_logs_quiet _ Hq) as (Hs & Hr & Hc).
  destruct (transfer_shape home rem fs) as (Tr & Ts & Tc).
  cbv zeta.
  destruct res; cbn [negb andb];
    rewrite !removals_app, !sleeps_app, !copied_app, Hs, Hr, Hc;
    [rewrite Tr, Ts, Tc|]; repeat split.
Qed.

(** X18.  The [findAndConnect] of the first watcher and the one of
    [file_transfer_watcher] decide alike: the later one only runs the
    rescan first. *)
Theorem rescan_is_the_only_difference (nm : Nmcli) (ssid remotePassword : string) :
  fst (findAndConnect nm ssid remotePassword)
  = fst (scriptsFindAndConnect nm ssid remotePassword)
  /\ snd (findAndConnect nm ssid remotePassword)
     = Exec "nmcli" rescanArgs
         :: snd (scriptsFindAndConnect nm ssid remotePassword).
Proof.
  unfold findAndConnect, scriptsFindAndConnect.
  destruct (nm scanArgs) as [out|]; [|split; reflexivity].
  destruct (scanLoop nm ssid remotePassword (scanLines out)); split; reflexivity.
Qed.

Lemma events_app t1 t2 : events (t1 ++ t2) = events t1 ++ events t2.
Proof. apply flat_map_app. Qed.

Lemma events_map_Ev t : events (map Ev t) = t.
Proof.
  induction t as [|e t IH]; [reflexivity|].
  cbn [map]. unfold events in *. cbn [flat_map app]. now rewrite IH.
Qed.

Section Cleanup.
Variables (home : path) (w : ScriptsWorld).

Lemma scriptsRemoveEntries_cons name names fs :
  scriptsRemoveEntries home w (name :: names) fs
  = match scriptsRemains home w name fs with
    | None =>
        (fst (scriptsRemoveEntries home w names (removeEntry name fs)),
         Ev (RemoveAll (Join (exportDir home) [name]) true)
           :: snd (scriptsRemoveEntries home w names (removeEntry name fs)))
    | Some c' =>
        (fst (scriptsRemoveEntries home w names (replaceEntry name c' fs)),
         Ev (RemoveAll (Join (exportDir home) [name]) false)
           :: snd (scriptsRemoveEntries home w names (replaceEntry name c' fs)))
    end.
Proof.
  cbn [scriptsRemoveEntries]. cbv zeta.
  destruct (scriptsRemains home w name fs) as [c'|];
    [destruct (scriptsRemoveEntries home w names (replaceEntry name c' fs))
    |destruct (scriptsRemoveEntries home w names (removeEntry name fs))];
    reflexivity.
Qed.

(** The cleanup of the first watcher is nothing but removals, one for
    every listed entry, failed or not. *)
Lemma scriptsRemoveEntries_events names : forall fs,
  removals (events (snd (scriptsRemoveEntries home w names fs)))
  = map (fun n => Join (exportDir home) [n]) names
  /\ sleeps (events (snd (scriptsRemoveEntries home w names fs))) = []
  /\ existsb (fun e => match e with
                       | Log line => String.eqb line "Error occured on delete: %v"
                       | _ => false
                       end)
             (events (snd (scriptsRemoveEntries home w names fs))) = false.
Proof.
  induction names as [|n names IH]; intros fs; [repeat split|].
  rewrite scriptsRemoveEntries_cons.
  destruct (scriptsRemains home w n fs) as [c'|]; cbn [snd];
    [destruct (IH (replaceEntry n c' fs)) as (IH1 & IH2 & IH3)
    |destruct (IH (removeEntry n fs)) as (IH1 & IH2 & IH3)];
    unfold events in *; cbn [flat_map app removals map sleeps existsb orb];
    rewrite IH1; repeat split; assumption.
Qed.

End Cleanup.

(** What the connectivity stage of the first watcher leaves in the trace
    is no sleep, no removal and no log line about a removal. *)
Lemma rescan_free_quiet (nm : Nmcli) :
  let t := snd (scriptsFindAndConnect nm ssid "passyword")
             ++ [Log ("Found network: "
                        ++ boolText (fst (scriptsFindAndConnect nm ssid "passyword")))%string] in
  sleeps t = [] /\ removals t = []
  /\ existsb (fun e => match e with
                       | Log line => String.eqb line "Error occured on delete: %v"
                       | _ => false
                       end) t = false.
Proof.
  unfold scriptsFindAndConnect.
  destruct (nm scanArgs) as [out|]; [|repeat split].
  rewrite scanLoop_cases.
  destruct (existsb (matches ssid) (scanLines out)); [|repeat split].
  unfold connectTo.
  destruct (nm ["con"; "show"; ssid]); cbn [String.eqb Ascii.eqb Bool.eqb ssid];
    repeat match goal with
           | |- context [match nm ?a with _ => _ end] => destruct (nm a)
           end; repeat split.
Qed.

(** X19.  An iteration of the first watcher attempts removals only when
    [findAndConnect], the client and the directory copy all succeeded and
    the directory could be listed, and then of every listed entry; a
    removal that fails is passed over in silence (no log line, no sleep);
    the iteration sleeps exactly once, five minutes when it came to the
    cleanup and five seconds otherwise. *)
Theorem scripts_iteration_cleanup home w fs :
  let t := events (snd (scriptsIteration home w fs)) in
  removals t
  = (if scripts_reaches_cleanup w fs
     then map (fun n => Join (exportDir home) [n])
              (match readDir (s_before_cleanup w fs) with
               | Some names => names
               | None => []
               end)
     else [])
  /\ sleeps t
     = [if scripts_reaches_cleanup w fs then 5 * Minute else 5 * Second]
  /\ existsb (fun e => match e with
                       | Log line => String.eqb line "Error occured on delete: %v"
                       | _ => false
                       end) t = false.
Proof.
  unfold scriptsIteration, scripts_reaches_cleanup. cbn [checkIfConnected negb].
  pose proof (rescan_free_quiet (s_nmcli w)) as Hq.
  destruct (scriptsFindAndConnect (s_nmcli w) ssid "passyword") as [res t1].
  cbn [fst snd] in *. destruct Hq as (Hs1 & Hr1 & Hl1).
  destruct res; cbn [negb andb].
  - unfold scriptsTransfer.
    destruct (s_client_ok w); cbn [andb];
      [destruct (s_copy_ok w); cbn [andb]|].
    + destruct (readDir (s_before_cleanup w fs)) as [names|] eqn:Ed.
      * pose proof (scriptsRemoveEntries_events home w names (s_before_cleanup w fs))
          as (R1 & R2 & R3).
        destruct (scriptsRemoveEntries home w names (s_before_cleanup w fs)) as [fs3 t3].
        cbn [snd] in *. cbv zeta.
        rewrite events_app, events_map_Ev, removals_app, sleeps_app, existsb_app,
          Hs1, Hr1, Hl1.
        rewrite !events_app, !removals_app, !sleeps_app, !existsb_app, R1, R2, R3.
        repeat split.
        cbn. now rewrite app_nil_r.
      * cbv beta iota zeta. cbn [snd].
        rewrite events_app, events_map_Ev, removals_app, sleeps_app, existsb_app,
          Hs1, Hr1, Hl1.
        repeat split.
    + cbv beta iota zeta. cbn [snd].
      rewrite events_app, events_map_Ev, removals_app, sleeps_app, existsb_app,
        Hs1, Hr1, Hl1.
      repeat split.
    + cbv beta iota zeta. cbn [snd].
      rewrite events_app, events_map_Ev, removals_app, sleeps_app, existsb_app,
        Hs1, Hr1, Hl1.
      repeat split.
  - cbv beta iota zeta. cbn [snd].
    rewrite events_app, events_map_Ev, removals_app, sleeps_app, existsb_app,
      Hs1, Hr1, Hl1.
    repeat split.
Qed.

End EarlierWatchers.

(** ** The mode string, and the idle loop *)

Module FmtMore.
Import Fmt.

Lemma digit_ok (d : N) :
  (d < 8)%N ->
  (N_of_ascii (octal_digit d) - 48 = d)%N
  /\ is_octal_digit (octal_digit d) = true.
Proof.
  intros H.
  assert (Hd : d = 0%N \/ d = 1%N \/ d = 2%N \/ d = 3%N
               \/ d = 4%N \/ d = 5%N \/ d = 6%N \/ d = 7%N) by lia.
  repeat (destruct Hd as [->|Hd]; [split; reflexivity|]).
  subst d. split; reflexivity.
Qed.

Lemma string_length_app (a b : string) :
  String.length (a ++ b) = (String.length a + String.length b)%nat.
Proof.
  induction a as [|c a IH]; [reflexivity|].
  cbn. now rewrite IH.
Qed.

(** The digits written for [n] in front of [acc] read as [n] shifted in
    front of what [acc] reads as. *)
Lemma octal_aux_value fuel : forall n acc a,
  (n < 8 ^ N.of_nat fuel)%N ->
  exists k, octal_value_aux (octal_aux fuel n acc) a
            = octal_value_aux acc (a * 8 ^ k + n)%N.
Proof.
  induction fuel as [|fuel IH]; intros n acc a Hn.
  - exists 0%N. cbn in Hn. cbn [octal_aux].
    replace n with 0%N by lia. f_equal. cbn. lia.
  - cbn [octal_aux]. cbv zeta.
    assert (Hm : (n mod 8 < 8)%N) by (apply N.mod_lt; discriminate).
    destruct (digit_ok _ Hm) as [Hv _].
    pose proof (N.div_mod n 8 ltac:(discriminate)) as Hdm.
    destruct (n / 8 =? 0)%N eqn:E.
    + apply N.eqb_eq in E. exists 1%N. cbn [octal_value_aux].
      rewrite Hv. f_equal. rewrite N.pow_1_r. lia.
    + assert (Hq : (n / 8 < 8 ^ N.of_nat fuel)%N).
      { apply N.Div0.div_lt_upper_bound.
        rewrite Nat2N.inj_succ, N.pow_succ_r' in Hn. exact Hn. }
      destruct (IH (n / 8)%N (String (octal_digit (n mod 8)) acc) a Hq) as [k Hk].
      exists (N.succ k). rewrite Hk. cbn [octal_value_aux]. rewrite Hv.
      f_equal. rewrite N.pow_succ_r'. lia.
Qed.

Lemma octal_aux_digits fuel : forall n acc,
  all_octal acc = true -> all_octal (octal_aux fuel n acc) = true.
Proof.
  induction fuel as [|fuel IH]; intros n acc Ha; [exact Ha|].
  cbn [octal_aux]. cbv zeta.
  assert (Hm : (n mod 8 < 8)%N) by (apply N.mod_lt; discriminate).
  destruct (digit_ok _ Hm) as [_ Hd].
  destruct (n / 8 =? 0)%N.
  - cbn [all_octal]. now rewrite Hd.
  - apply IH. cbn [all_octal]. now rewrite Hd.
Qed.

Lemma fuel_enough (n : N) : (n < 8 ^ N.of_nat (S (N.to_nat (N.log2 n))))%N.
Proof.
  rewrite Nat2N.inj_succ, N2Nat.id.
  destruct (N.eq_dec n 0) as [->|Hn]; [reflexivity|].
  assert (H0 : (0 < n)%N) by lia.
  pose proof (N.log2_spec n H0) as [_ Hlt].
  apply (N.lt_le_trans _ _ _ Hlt).
  apply N.pow_le_mono_l. lia.
Qed.

Lemma zeros_value k : forall s,
  octal_value_aux (zeros k ++ s) 0 = octal_value_aux s 0.
Proof.
  induction k as [|k IH]; intros s; [reflexivity|].
  cbn [zeros String.append octal_value_aux]. apply IH.
Qed.

Lemma zeros_digits k : forall s, all_octal (zeros k ++ s) = all_octal s.
Proof.
  induction k as [|k IH]; intros s; [reflexivity|].
  cbn [zeros String.append all_octal]. apply IH.
Qed.

Lemma zeros_length k : String.length (zeros k) = k.
Proof. induction k as [|k IH]; [reflexivity|]. cbn. now rewrite IH. Qed.

(** X20.  The mode string can be read back: for every number, what
    [%04o] writes consists of octal digits, is at least four characters
    long and denotes that number. *)
Theorem Sprintf04o_reads_back (n : N) :
  octal_value (Sprintf04o n) = n
  /\ all_octal (Sprintf04o n) = true
  /\ (4 <= String.length (Sprintf04o n))%nat.
Proof.
  unfold Sprintf04o, octal_value. cbv zeta. repeat split.
  - rewrite zeros_value. unfold FormatOctal.
    destruct (octal_aux_value _ n "" 0%N (fuel_enough n)) as [k Hk].
    rewrite Hk. cbn [octal_value_aux]. lia.
  - rewrite zeros_digits. unfold FormatOctal. now apply octal_aux_digits.
  - rewrite string_length_app, zeros_length. lia.
Qed.

End FmtMore.

Module IdleLoop.
Import Time Fs ScpDir Trace Observe Main MainFacts ScpDirFacts Health.

(** X21.  However long the loop runs on an export directory that is
    empty or cannot be listed, it only lists, logs and sleeps five
    seconds, iteration after iteration: no session, no command, no
    removal, and the directory stays as it is. *)
Theorem idle_loop_stays_idle home (ws : list World) fs :
  readDir fs = None \/ readDir fs = Some [] ->
  loop home ws fs
  = (fs,
     List.concat
       (map (fun _ => [ReadDir (exportDir home) (readDir fs);
                       Log "Nothing to do; sleeping";
                       Sleep (5 * Second)]) ws)).
Proof.
  intros H. induction ws as [|w ws IH]; [reflexivity|].
  cbn [loop map List.concat].
  assert (Hi : iteration home w fs
               = (fs, [ReadDir (exportDir home) (readDir fs);
                       Log "Nothing to do; sleeping"; Sleep (5 * Second)])).
  { unfold iteration. destruct H as [-> | ->]; reflexivity. }
  rewrite Hi, IH. reflexivity.
Qed.

Lemma idle_loop_stays_idle_witness :
  let w := quiet (mkRemote true (fun _ => true)) (fun _ => true) in
  let fs := File 33188 "not a directory" true in
  loop ["home"; "pi"] [w; w; w] fs
  = (fs,
     List.concat
       (map (fun _ => [ReadDir (exportDir ["home"; "pi"]) (readDir fs);
                       Log "Nothing to do; sleeping";
                       Sleep (5 * Second)]) [w; w; w])).
Proof.
  intros w fs.
  apply (idle_loop_stays_idle ["home"; "pi"] [w; w; w] fs). left. reflexivity.
Defined.



End IdleLoop.
